(** * Micro-kernel fusion and block-tiled execution (cgpt, benchmarks.cc)

    A shallow embedding of [micro_kernel_arg_t], [mk_su3_mul] and
    [eval_micro_kernels] from [lib/cgpt/lib/benchmarks.cc], with the
    properties of the block-tiled executor stated over it.

    Conventions.
    - [size_t] is a 64-bit unsigned integer: a [Z] in [0, 2^64) whose
      additions, subtractions and multiplications wrap around.
    - Undefined behaviour of the C++ program (division by zero, an index
      outside a [std::vector] or outside a field, deleting a container
      twice) is the result [None].
    - The two build variants of [eval_micro_kernels] (threaded host and
      accelerator queue) run the same double loop; a parallel loop over the
      sites of one block is modelled by its sequential execution. *)

From Stdlib Require Import ZArith Lia List.
From stdpp Require Import base option list.

Local Open Scope Z_scope.

(** ** [size_t] arithmetic *)

Definition size_max : Z := 2 ^ 64.

Definition wrap (z : Z) : Z := z mod size_max.

Definition size_add (a b : Z) : Z := wrap (a + b).
Definition size_sub (a b : Z) : Z := wrap (a - b).
Definition size_mul (a b : Z) : Z := wrap (a * b).

(** Unsigned division; dividing by zero is undefined. *)
Definition size_div (a b : Z) : option Z :=
  if b =? 0 then None else Some (a / b).

Definition is_size (z : Z) : Prop := 0 <= z < size_max.

(** ** Views and view sets *)

(** Grid's access modes. *)
Inductive ViewMode : Type :=
| AcceleratorRead
| AcceleratorWrite
| AcceleratorWriteDiscard
| CpuRead
| CpuWrite
| CpuWriteDiscard.

(** A lattice, seen through what the engine uses of it: the identity of
    its site storage and [l.Grid()->oSites()]. *)
Record Lattice : Type := mkLattice {
  lat_data : nat;
  lat_oSites : Z
}.

(** [LatticeView<vobj>]: an access window onto the storage of one lattice. *)
Record LatticeView : Type := mkLatticeView {
  lv_data : nat;
  lv_mode : ViewMode
}.

(** [ViewContainer<View>], allocated with [new]; [vc_id] is the identity
    of the heap object a [ViewContainerBase*] points to. *)
Record ViewContainer : Type := mkViewContainer {
  vc_id : nat;
  v : LatticeView
}.

Record micro_kernel_arg_t : Type := mk_arg {
  views : list ViewContainer;
  o_sites : Z
}.

(** ** Kernels and the loops of the executor *)

(** [for (x = lo; x < lo + count; x++) body(x)] over a state, stopping at
    the first undefined step. *)
Fixpoint for_range {St : Type} (count : nat) (lo : Z)
    (body : Z -> St -> option St) (s : St) : option St :=
  match count with
  | O => Some s
  | S c =>
      match body lo s with
      | Some s' => for_range c (lo + 1) body s'
      | None => None
      end
  end.

(** Run [f], then [h]. *)
Definition andthen {St : Type} (f h : St -> option St) : St -> option St :=
  fun s => match f s with Some s' => h s' | None => None end.

(** [f] and [h] may be run in either order. *)
Definition commute {St : Type} (f h : St -> option St) : Prop :=
  forall s, andthen f h s = andthen h f s.

Section Executor.

(** The state the kernel actions act on. *)
Context {St : Type}.

Definition micro_kernel_action_t : Type :=
  micro_kernel_arg_t -> Z -> Z -> St -> option St.

Record micro_kernel_t : Type := mk_kernel {
  action : micro_kernel_action_t;
  arg : micro_kernel_arg_t
}.

(** [(o_sites + block_size - 1) / block_size], in [size_t]. *)
Definition block_count (o_sites block_size : Z) : option Z :=
  size_div (size_sub (size_add o_sites block_size) 1) block_size.

(** [j0 = std::min(j*block_size, o_sites)] *)
Definition block_lo (o_sites block_size j : Z) : Z :=
  Z.min (size_mul j block_size) o_sites.

(** [j1 = std::min(j0 + block_size, o_sites)] *)
Definition block_hi (o_sites block_size j : Z) : Z :=
  Z.min (size_add (block_lo o_sites block_size j) block_size) o_sites.

(** The inner loop: [for (i = 0; i < n; i++) k.action(k.arg, j0, j1)]. *)
Definition eval_block (kernels : list micro_kernel_t)
    (o_sites block_size j : Z) (s : St) : option St :=
  for_range (length kernels) 0
    (fun i s =>
       match kernels !! Z.to_nat i with
       | Some k =>
           let j0 := block_lo o_sites block_size j in
           let j1 := block_hi o_sites block_size j in
           action k (arg k) j0 j1 s
       | None => None
       end) s.

(** [eval_micro_kernels]: the bound of the outer loop does not change
    during the loop, so it is computed once. *)
Definition eval_micro_kernels (kernels : list micro_kernel_t)
    (block_size : Z) (s : St) : option St :=
  match kernels !! 0%nat with
  | None => None
  | Some k0 =>
      let o_sites := o_sites (arg k0) in
      match block_count o_sites block_size with
      | None => None
      | Some nb =>
          for_range (Z.to_nat nb) 0
            (eval_block kernels o_sites block_size) s
      end
  end.

(** *** The invocations of one pass, as data *)

(** One invocation [kernels[i].action(kernels[i].arg, i0, i1)]. *)
Definition call : Type := nat * (Z * Z).

Definition run_call (kernels : list micro_kernel_t) (c : call)
    (s : St) : option St :=
  match kernels !! c.1 with
  | Some k => action k (arg k) c.2.1 c.2.2 s
  | None => None
  end.

Fixpoint run_calls (kernels : list micro_kernel_t) (cs : list call)
    (s : St) : option St :=
  match cs with
  | [] => Some s
  | c :: cs' =>
      match run_call kernels c s with
      | Some s' => run_calls kernels cs' s'
      | None => None
      end
  end.

(** The untiled baseline: every kernel action once over the full range
    [[0, extent)], in schedule order. *)
Fixpoint untiled (kernels : list micro_kernel_t) (extent : Z) (s : St)
  : option St :=
  match kernels with
  | [] => Some s
  | k :: rest =>
      match action k (arg k) 0 extent s with
      | Some s' => untiled rest extent s'
      | None => None
      end
  end.

End Executor.

Arguments micro_kernel_action_t : clear implicits.
Arguments micro_kernel_t : clear implicits.

(** The block with number [j]. *)
Definition block_of (o_sites block_size : Z) (j : nat) : Z * Z :=
  (block_lo o_sites block_size (Z.of_nat j),
   block_hi o_sites block_size (Z.of_nat j)).

(** The blocks the outer loop goes through, in the order of [j]. *)
Definition executor_blocks (o_sites block_size : Z) : option (list (Z * Z)) :=
  match block_count o_sites block_size with
  | Some nb => Some (map (block_of o_sites block_size) (seq 0 (Z.to_nat nb)))
  | None => None
  end.

(** Block-major order: for each block, every kernel [0 .. n-1]. *)
Definition block_major (n : nat) (blocks : list (Z * Z)) : list call :=
  flat_map (fun b => map (fun i => (i, b)) (seq 0 n)) blocks.

(** [ceil(a / b)] *)
Definition ceil_div (a b : Z) : Z :=
  a / b + (if a mod b =? 0 then 0 else 1).

(** A list of half-open blocks tiles [[0, extent)]: later blocks lie
    above earlier ones, and the blocks cover exactly the extent. *)
Definition ascending (bs : list (Z * Z)) : Prop :=
  forall (j j' : nat) (b b' : Z * Z),
    bs !! j = Some b -> bs !! j' = Some b' -> (j < j')%nat -> b.2 <= b'.1.

Definition covers (bs : list (Z * Z)) (extent : Z) : Prop :=
  forall x, 0 <= x < extent <-> exists b, In b bs /\ b.1 <= x < b.2.

Definition pairwise_disjoint (bs : list (Z * Z)) : Prop :=
  forall (j j' : nat) (b b' : Z * Z),
    bs !! j = Some b -> bs !! j' = Some b' -> j <> j' ->
    forall x, ~ (b.1 <= x < b.2 /\ b'.1 <= x < b'.2).

Definition tiles (bs : list (Z * Z)) (extent : Z) : Prop :=
  pairwise_disjoint bs /\ covers bs extent /\ ascending bs.

(** Consecutive blocks from [a] up to [c]: each block starts where the
    one before it ends. *)
Fixpoint chain (a : Z) (bs : list (Z * Z)) (c : Z) : Prop :=
  match bs with
  | [] => a = c
  | blk :: rest => blk.1 = a /\ a <= blk.2 /\ chain blk.2 rest c
  end.

(** The invocations of the kernels [ix], in this order, on one block. *)
Definition row (ix : list nat) (blk : Z * Z) : list call :=
  map (fun i => (i, blk)) ix.

(** A kernel that only records its invocations. *)
Definition recorder (i : nat) (a : micro_kernel_arg_t)
  : micro_kernel_t (list call) :=
  mk_kernel (fun _ i0 i1 log => Some (log ++ [(i, (i0, i1))])) a.

Definition recorders (args : list micro_kernel_arg_t)
  : list (micro_kernel_t (list call)) :=
  imap recorder args.

(** ** Building and releasing a view set *)

(** What the view system of the lattice library observes. *)
Inductive view_event : Type :=
| ViewOpened (id data : nat) (mode : ViewMode)
| ViewClosed (id : nat).

(** The containers that are allocated and not yet deleted, the next fresh
    identity, and the views opened and closed so far. *)
Record view_world : Type := mk_world {
  next_id : nat;
  live : list nat;
  trace : list view_event
}.

Inductive outcome (A : Type) : Type :=
| Done (a : A)
| AssertFailed.

Arguments Done {A} a.
Arguments AssertFailed {A}.

(** Modelled from the spec: the macro [ASSERT] is declared in lib.h,
    outside benchmarks.cc; a failed assertion is the fatal configuration
    error of the view set, and nothing after it runs. *)
Definition ASSERT {A : Type} (cond : bool) (rest : outcome A) : outcome A :=
  if cond then rest else AssertFailed.

(** [auto l_v = l.View(mode); views.push_back(new ViewContainer(l_v))] *)
Definition open_and_push (l : Lattice) (mode : ViewMode)
    (self : micro_kernel_arg_t) (w : view_world)
  : micro_kernel_arg_t * view_world :=
  let id := next_id w in
  (mk_arg (views self ++ [mkViewContainer id (mkLatticeView (lat_data l) mode)])
          (o_sites self),
   mk_world (S id) (id :: live w)
            (trace w ++ [ViewOpened id (lat_data l) mode])).

(** [micro_kernel_arg_t::add] *)
Definition add (l : Lattice) (mode : ViewMode)
    (self : micro_kernel_arg_t) (w : view_world)
  : outcome (micro_kernel_arg_t * view_world) :=
  let _o_sites := lat_oSites l in
  if (length (views self) =? 0)%nat then
    Done (open_and_push l mode (mk_arg (views self) _o_sites) w)
  else
    ASSERT (o_sites self =? _o_sites) (Done (open_and_push l mode self w)).

(** [delete x]: the destructor of the container closes its view; deleting
    what is not allocated is undefined. *)
Definition delete_container (x : ViewContainer) (w : view_world)
  : option view_world :=
  if in_dec Nat.eq_dec (vc_id x) (live w) then
    Some (mk_world (next_id w)
                   (List.remove Nat.eq_dec (vc_id x) (live w))
                   (trace w ++ [ViewClosed (vc_id x)]))
  else None.

Fixpoint delete_all (xs : list ViewContainer) (w : view_world)
  : option view_world :=
  match xs with
  | [] => Some w
  | x :: xs' =>
      match delete_container x w with
      | Some w' => delete_all xs' w'
      | None => None
      end
  end.

(** [micro_kernel_arg_t::release]: [for (auto x : views) delete x;] *)
Definition release (self : micro_kernel_arg_t) (w : view_world)
  : option view_world :=
  delete_all (views self) w.

(** The containers of a view set are distinct live objects, and identities
    not yet handed out are not live. *)
Definition world_ok (w : view_world) : Prop :=
  forall id, In id (live w) -> (id < next_id w)%nat.

Definition view_set_ok (self : micro_kernel_arg_t) (w : view_world) : Prop :=
  NoDup (map vc_id (views self)) /\
  (forall x, In x (views self) -> In (vc_id x) (live w)) /\
  world_ok w.

(** The close operations among some events. *)
Definition closes_of (id : nat) (evs : list view_event) : nat :=
  length (List.filter
            (fun e => match e with
                      | ViewClosed id' => Nat.eqb id id'
                      | ViewOpened _ _ _ => false
                      end) evs).

Definition is_close (e : view_event) : bool :=
  match e with ViewClosed _ => true | ViewOpened _ _ _ => false end.

(** ** Field memory and the example kernel *)

(** How a kernel reaches the sites of a view: reading [view[i]] and
    assigning to [view[i]], over a state [St]. *)
Record view_access (St V : Type) : Type := mk_access {
  peek : LatticeView -> Z -> St -> option (V * St);
  poke : LatticeView -> Z -> V -> St -> option St
}.

Arguments mk_access {St V} _ _.
Arguments peek {St V} _ _ _ _.
Arguments poke {St V} _ _ _ _ _.

(** The site storage of every lattice, by [lat_data]: one list of vector
    objects for each lattice. *)
Abbreviation memory V := (list (list V)) (only parsing).

Section Fields.

(** The vector object of one outer site and its product. *)
Context {V : Type}.
Variable mul : V -> V -> V.

(** [mk_su3_mul]; [a_p[idx]] is [a_v[i0 + idx]]. *)
Definition mk_su3_mul {St : Type} (acc : view_access St V)
  : micro_kernel_action_t St :=
  fun arg i0 i1 s =>
    match views arg !! 0%nat, views arg !! 1%nat, views arg !! 2%nat with
    | Some a, Some b, Some c =>
        for_range (Z.to_nat (size_sub i1 i0)) 0
          (fun idx s =>
             match peek acc (v b) (i0 + idx) s with
             | Some (x, s1) =>
                 match peek acc (v c) (i0 + idx) s1 with
                 | Some (y, s2) => poke acc (v a) (i0 + idx) (mul x y) s2
                 | None => None
                 end
             | None => None
             end) s
    | _, _, _ => None
    end.


Definition cell (m : memory V) (data : nat) (i : nat) : option V :=
  match m !! data with
  | Some row => row !! i
  | None => None
  end.

Definition mem_read (lv : LatticeView) (i : Z) (m : memory V) : option V :=
  cell m (lv_data lv) (Z.to_nat i).

Definition mem_write (lv : LatticeView) (i : Z) (x : V) (m : memory V)
  : option (memory V) :=
  match m !! lv_data lv with
  | Some row =>
      if (Z.to_nat i <? length row)%nat
      then Some (<[lv_data lv := <[Z.to_nat i := x]> row]> m)
      else None
  | None => None
  end.

Definition plain : view_access (memory V) V :=
  mk_access
    (fun lv i m =>
       match mem_read lv i m with
       | Some x => Some (x, m)
       | None => None
       end)
    mem_write.

(** The same memory, with every access written down. *)
Inductive access : Type :=
| Read (data : nat) (i : Z)
| Write (data : nat) (i : Z).

Definition logged : view_access (memory V * list access) V :=
  mk_access
    (fun lv i s =>
       match mem_read lv i s.1 with
       | Some x => Some (x, (s.1, s.2 ++ [Read (lv_data lv) i]))
       | None => None
       end)
    (fun lv i x s =>
       match mem_write lv i x s.1 with
       | Some m' => Some (m', s.2 ++ [Write (lv_data lv) i])
       | None => None
       end).

(** One turn of the loop of [mk_su3_mul] on the plain memory, at site
    [i] of the views [a], [b] and [c]. *)
Definition su3_site (a b c : LatticeView) (i : Z) (m : memory V)
  : option (memory V) :=
  match mem_read b i m with
  | Some x =>
      match mem_read c i m with
      | Some y => mem_write a i (mul x y) m
      | None => None
      end
  | None => None
  end.

(** The product of what two fields hold at site [i]. *)
Definition product_at (m : memory V) (left right : nat) (i : nat) : option V :=
  match cell m left i, cell m right i with
  | Some x, Some y => Some (mul x y)
  | _, _ => None
  end.

Definition access_site (x : access) : Z :=
  match x with
  | Read _ i => i
  | Write _ i => i
  end.

(** The accesses of [a_p[idx] = b_p[idx] * c_p[idx]] at site [i], and
    over [count] sites from [lo] on. *)
Definition site_accesses (a b c : LatticeView) (i : Z) : list access :=
  [Read (lv_data b) i; Read (lv_data c) i; Write (lv_data a) i].

Fixpoint range_accesses (a b c : LatticeView) (count : nat) (lo : Z)
  : list access :=
  match count with
  | O => []
  | S n => site_accesses a b c lo ++ range_accesses a b c n (lo + 1)
  end.

(** *** Kernel actions that work site by site *)

(** The values all fields hold at site [i]. *)
Definition slice (i : nat) (m : memory V) : list (option V) :=
  map (fun row => row !! i) m.

(** Store [w data] at site [i] of each field [data] that [w] names. *)
Definition put_site (i : nat) (w : nat -> option V) (m : memory V) : memory V :=
  imap (fun data row =>
          match w data with
          | Some x => <[i := x]> row
          | None => row
          end) m.

(** One site of an elementwise kernel: what is written at site [i] is
    computed from what the fields hold at site [i]. *)
Definition site_step (g : Z -> list (option V) -> option (nat -> option V))
    (i : Z) (m : memory V) : option (memory V) :=
  match g i (slice (Z.to_nat i) m) with
  | Some w => Some (put_site (Z.to_nat i) w m)
  | None => None
  end.

(** The contract of a Kernel Action: over a range [[i0, i1)] it reads the
    operands at [i], computes, and writes the destinations at [i], for
    each [i] of the range. *)
Definition sitewise (k : micro_kernel_t (memory V)) : Prop :=
  exists g : Z -> list (option V) -> option (nat -> option V),
    forall i0 i1 m,
      0 <= i0 <= i1 -> i1 < size_max ->
      action k (arg k) i0 i1 m
      = for_range (Z.to_nat (i1 - i0)) i0 (site_step g) m.

(** What [mk_su3_mul] does at one site, from the values of the fields at
    that site: the destination must be there and gets the product. *)
Definition su3_g (a b c : LatticeView) (sl : list (option V))
  : option (nat -> option V) :=
  match sl !! lv_data b with
  | Some (Some x) =>
      match sl !! lv_data c with
      | Some (Some y) =>
          match sl !! lv_data a with
          | Some (Some _) =>
              Some (fun data =>
                      if Nat.eqb data (lv_data a) then Some (mul x y)
                      else None)
          | _ => None
          end
      | _ => None
      end
  | _ => None
  end.

End Fields.


(** ** The expression of the benchmark, on integer site values *)

Definition fresh_world : view_world := mk_world 0 [] [].

(** A view set before its first [add]; [o_sites] is not initialised. *)
Definition no_views (junk : Z) : micro_kernel_arg_t := mk_arg [] junk.

(** Three calls of [add], as for [views_c_a_b] and [views_d_a_c]. *)
Definition add3 (dest left right : Lattice) (self : micro_kernel_arg_t)
    (w : view_world) : outcome (micro_kernel_arg_t * view_world) :=
  match add dest AcceleratorWriteDiscard self w with
  | Done (self1, w1) =>
      match add left AcceleratorRead self1 w1 with
      | Done (self2, w2) => add right AcceleratorRead self2 w2
      | AssertFailed => AssertFailed
      end
  | AssertFailed => AssertFailed
  end.

Definition lat_a : Lattice := mkLattice 0 17.
Definition lat_b : Lattice := mkLattice 1 17.
Definition lat_c : Lattice := mkLattice 2 17.
Definition lat_d : Lattice := mkLattice 3 17.

Definition views_c_a_b : micro_kernel_arg_t :=
  mk_arg [mkViewContainer 0 (mkLatticeView 2 AcceleratorWriteDiscard);
          mkViewContainer 1 (mkLatticeView 0 AcceleratorRead);
          mkViewContainer 2 (mkLatticeView 1 AcceleratorRead)] 17.

Definition views_d_a_c : micro_kernel_arg_t :=
  mk_arg [mkViewContainer 3 (mkLatticeView 3 AcceleratorWriteDiscard);
          mkViewContainer 4 (mkLatticeView 0 AcceleratorRead);
          mkViewContainer 5 (mkLatticeView 2 AcceleratorRead)] 17.

Definition expression : list (micro_kernel_t (memory Z)) :=
  [mk_kernel (mk_su3_mul Z.mul plain) views_c_a_b;
   mk_kernel (mk_su3_mul Z.mul plain) views_d_a_c;
   mk_kernel (mk_su3_mul Z.mul plain) views_c_a_b;
   mk_kernel (mk_su3_mul Z.mul plain) views_d_a_c].

(** Site values of [a], [b], [c] and [d] before the pass. *)
Definition example_memory : memory Z :=
  [map (fun i => Z.of_nat i + 1) (seq 0 17);
   map (fun i => 2 * Z.of_nat i + 3) (seq 0 17);
   repeat 0 17;
   repeat 0 17].

(** The same expression on lattices of two sites. *)
Definition small_views : micro_kernel_arg_t :=
  mk_arg [mkViewContainer 0 (mkLatticeView 2 AcceleratorWriteDiscard);
          mkViewContainer 1 (mkLatticeView 0 AcceleratorRead);
          mkViewContainer 2 (mkLatticeView 1 AcceleratorRead)] 2.

Definition small_expression : list (micro_kernel_t (memory Z)) :=
  [mk_kernel (mk_su3_mul Z.mul plain) small_views].

Definition small_memory : memory Z := [[2; 3]; [5; 7]; [0; 0]].

(** The cells of [m'] at and above [extent] are those of [m], and [m']
    has the cells [m] has. *)
Definition same_above {V : Type} (extent : Z) (m m' : memory V) : Prop :=
  (forall data j, extent <= Z.of_nat j -> cell m' data j = cell m data j) /\
  (forall data j, is_Some (cell m' data j) <-> is_Some (cell m data j)).

(** ** The driver [micro_kernels] *)

(** Calls of [add] on one view set, one after the other; the first failed
    assertion ends the construction. *)
Fixpoint add_all (ls : list (Lattice * ViewMode)) (self : micro_kernel_arg_t)
    (w : view_world) : outcome (micro_kernel_arg_t * view_world) :=
  match ls with
  | [] => Done (self, w)
  | (l, mode) :: rest =>
      match add l mode self w with
      | Done (self', w') => add_all rest self' w'
      | AssertFailed => AssertFailed
      end
  end.

(** The view of a field in a view set, without the identity of its
    container. *)
Definition view_of (p : Lattice * ViewMode) : LatticeView :=
  mkLatticeView (lat_data p.1) p.2.

(** The event of opening the view a container holds. *)
Definition opened (x : ViewContainer) : view_event :=
  ViewOpened (vc_id x) (lv_data (v x)) (lv_mode (v x)).

(** [views_c_a_b] and [views_d_a_c] of [micro_kernels], built on the
    lattices [a], [b], [c] and [d]. *)
Definition build_views (a b c d : Lattice) (junk1 junk2 : Z) (w : view_world)
  : outcome (micro_kernel_arg_t * micro_kernel_arg_t * view_world) :=
  match add3 c a b (no_views junk1) w with
  | Done (views_c_a_b, w1) =>
      match add3 d a c (no_views junk2) w1 with
      | Done (views_d_a_c, w2) => Done (views_c_a_b, views_d_a_c, w2)
      | AssertFailed => AssertFailed
      end
  | AssertFailed => AssertFailed
  end.

(** The four [expression.push_back] of [micro_kernels]. *)
Definition fused_expression {V : Type} (mul : V -> V -> V)
    (views_c_a_b views_d_a_c : micro_kernel_arg_t)
  : list (micro_kernel_t (memory V)) :=
  [mk_kernel (mk_su3_mul mul plain) views_c_a_b;
   mk_kernel (mk_su3_mul mul plain) views_d_a_c;
   mk_kernel (mk_su3_mul mul plain) views_c_a_b;
   mk_kernel (mk_su3_mul mul plain) views_d_a_c].

(** [for (int i=0;i<N;i++) eval_micro_kernels(expression, block_size);] *)
Definition run_passes {St : Type} (N : nat)
    (expression : list (micro_kernel_t St)) (block_size : Z) (s : St)
  : option St :=
  for_range N 0 (fun _ => eval_micro_kernels expression block_size) s.

(** [views_c_a_b.release(); views_d_a_c.release();] *)
Definition release_both (views_c_a_b views_d_a_c : micro_kernel_arg_t)
    (w : view_world) : option view_world :=
  match release views_c_a_b w with
  | Some w1 => release views_d_a_c w1
  | None => None
  end.

(** A kernel on a lattice of five sites after a kernel on lattices of
    seventeen sites; field [4] is the short lattice. *)
Definition short_views : micro_kernel_arg_t :=
  mk_arg [mkViewContainer 6 (mkLatticeView 4 AcceleratorWriteDiscard);
          mkViewContainer 7 (mkLatticeView 4 AcceleratorRead);
          mkViewContainer 8 (mkLatticeView 4 AcceleratorRead)] 5.

Definition mismatched_expression : list (micro_kernel_t (memory Z)) :=
  [mk_kernel (mk_su3_mul Z.mul plain) views_c_a_b;
   mk_kernel (mk_su3_mul Z.mul plain) short_views].

Definition mismatched_memory : memory Z := example_memory ++ [repeat 1 5].

(** What passes over the expression of [micro_kernels] leave in memory,
    relative to the memory [m] before them: [C] holds the products of [A]
    and [B], [D] the products of [A] and [C], below [extent]; every other
    cell is the one of [m]. *)
Definition fused_result {V : Type} (mul : V -> V -> V) (A B C D : nat)
    (extent : Z) (m m' : memory V) : Prop :=
  (forall j, Z.of_nat j < extent ->
             cell m' C j = product_at mul m A B j /\
             cell m' D j = product_at mul m' A C j) /\
  (forall data j,
     ~ ((data = C \/ data = D) /\ Z.of_nat j < extent) ->
     cell m' data j = cell m data j).

(** The view system after [views_c_a_b] and [views_d_a_c] were built
    from [fresh_world]. *)
Definition built_world : view_world :=
  mk_world 6 [5; 4; 3; 2; 1; 0]%nat
    [ViewOpened 0 2 AcceleratorWriteDiscard;
     ViewOpened 1 0 AcceleratorRead;
     ViewOpened 2 1 AcceleratorRead;
     ViewOpened 3 3 AcceleratorWriteDiscard;
     ViewOpened 4 0 AcceleratorRead;
     ViewOpened 5 2 AcceleratorRead].

(** * Properties *)

(** ** Arithmetic of the block loop *)

Lemma size_max_pos : 0 < size_max.
Proof. reflexivity. Qed.

Lemma wrap_small z : 0 <= z < size_max -> wrap z = z.
Proof. intros H. unfold wrap. apply Z.mod_small. exact H. Qed.

Lemma block_count_zero o : block_count o 0 = None.
Proof. reflexivity. Qed.

Lemma block_count_defined o b :
  b <> 0 -> block_count o b = Some (size_sub (size_add o b) 1 / b).
Proof.
  intros Hb. unfold block_count, size_div.
  destruct (Z.eqb_spec b 0) as [E|E]; [contradiction|reflexivity].
Qed.

Lemma block_count_exact o b :
  0 <= o -> 1 <= b -> o + b - 1 < size_max ->
  block_count o b = Some ((o + b - 1) / b).
Proof.
  intros Ho Hb Hfit. rewrite block_count_defined by lia.
  f_equal. f_equal. unfold size_sub, size_add, wrap.
  rewrite Zminus_mod_idemp_l. apply Z.mod_small. lia.
Qed.

Lemma block_count_wrapped o b :
  is_size o -> is_size b -> 1 <= b -> size_max <= o + b - 1 ->
  block_count o b = Some 0.
Proof.
  intros [Ho1 Ho2] [Hb1 Hb2] Hb Hover. rewrite block_count_defined by lia.
  f_equal. unfold size_sub, size_add, wrap.
  rewrite Zminus_mod_idemp_l.
  replace (o + b - 1) with ((o + b - 1 - size_max) + 1 * size_max) by lia.
  rewrite Z.mod_add by (pose proof size_max_pos; lia).
  rewrite Z.mod_small by lia.
  apply Z.div_small. lia.
Qed.

Lemma ceil_div_rounds_up o b :
  0 <= o -> 1 <= b -> (o + b - 1) / b = ceil_div o b.
Proof.
  intros Ho Hb. unfold ceil_div.
  pose proof (Z.div_mod o b ltac:(lia)) as Hdm.
  pose proof (Z.mod_pos_bound o b ltac:(lia)) as Hm.
  destruct (Z.eqb_spec (o mod b) 0) as [E|E].
  - symmetry. apply (Z.div_unique _ _ _ (b - 1)); lia.
  - symmetry. apply (Z.div_unique _ _ _ (o mod b - 1)); lia.
Qed.

(** [ceil_div] is the least number of blocks of size [b] that hold [o]. *)
Lemma ceil_div_least o b :
  0 <= o -> 1 <= b ->
  o <= ceil_div o b * b /\ (ceil_div o b - 1) * b < o + (if o =? 0 then 1 else 0).
Proof.
  intros Ho Hb. unfold ceil_div.
  pose proof (Z.div_mod o b ltac:(lia)) as Hdm.
  pose proof (Z.mod_pos_bound o b ltac:(lia)) as Hm.
  destruct (Z.eqb_spec (o mod b) 0) as [E|E];
    destruct (Z.eqb_spec o 0) as [E0|E0]; nia.
Qed.

Lemma block_in_extent o b j :
  0 <= o -> 1 <= b -> 0 <= j < (o + b - 1) / b -> j * b < o.
Proof.
  intros Ho Hb Hj.
  pose proof (Z.mul_div_le (o + b - 1) b ltac:(lia)) as Hle.
  nia.
Qed.

Lemma block_lo_exact o b j :
  0 <= o -> 1 <= b -> o + b - 1 < size_max -> 0 <= j < (o + b - 1) / b ->
  block_lo o b j = j * b.
Proof.
  intros Ho Hb Hfit Hj. pose proof (block_in_extent o b j Ho Hb Hj) as Hin.
  unfold block_lo, size_mul. rewrite wrap_small by nia. lia.
Qed.

Lemma block_hi_exact o b j :
  0 <= o -> 1 <= b -> o + b - 1 < size_max -> 0 <= j < (o + b - 1) / b ->
  block_hi o b j = Z.min (j * b + b) o.
Proof.
  intros Ho Hb Hfit Hj. pose proof (block_in_extent o b j Ho Hb Hj) as Hin.
  unfold block_hi. rewrite block_lo_exact by assumption.
  unfold size_add. rewrite wrap_small by nia. reflexivity.
Qed.

(** Past the last block the formulas give the empty block at the end. *)
Lemma block_count_reaches o b :
  0 <= o -> 1 <= b -> o <= ((o + b - 1) / b) * b.
Proof.
  intros Ho Hb.
  pose proof (Z.div_mod (o + b - 1) b ltac:(lia)) as Hdm.
  pose proof (Z.mod_pos_bound (o + b - 1) b ltac:(lia)) as Hm.
  nia.
Qed.

(** ** The blocks of one pass *)

Lemma lookup_map_seq {A : Type} (f : nat -> A) (start n j : nat) :
  map f (seq start n) !! j
  = if (j <? n)%nat then Some (f (start + j)%nat) else None.
Proof.
  revert start j. induction n as [|n IH]; intros start j; simpl.
  - reflexivity.
  - destruct j as [|j]; simpl.
    + rewrite Nat.add_0_r. reflexivity.
    + rewrite IH. replace (S start + j)%nat with (start + S j)%nat by lia.
      reflexivity.
Qed.

Lemma executor_blocks_lookup o b bs (j : nat) blk :
  0 <= o -> 1 <= b -> o + b - 1 < size_max ->
  executor_blocks o b = Some bs ->
  bs !! j = Some blk ->
  Z.of_nat j < (o + b - 1) / b /\
  blk = (Z.of_nat j * b, Z.min (Z.of_nat j * b + b) o).
Proof.
  intros Ho Hb Hfit Hbs Hj. unfold executor_blocks in Hbs.
  rewrite block_count_exact in Hbs by assumption.
  injection Hbs as <-. rewrite lookup_map_seq in Hj.
  destruct (Nat.ltb_spec j (Z.to_nat ((o + b - 1) / b))) as [Hlt|Hge];
    [|discriminate].
  injection Hj as <-. simpl.
  assert (Hj' : 0 <= Z.of_nat j < (o + b - 1) / b) by lia.
  split; [lia|]. unfold block_of.
  rewrite block_lo_exact, block_hi_exact by assumption. reflexivity.
Qed.

Lemma executor_blocks_length o b :
  0 <= o -> 1 <= b -> o + b - 1 < size_max ->
  exists bs, executor_blocks o b = Some bs /\
             length bs = Z.to_nat (ceil_div o b).
Proof.
  intros Ho Hb Hfit. unfold executor_blocks.
  rewrite block_count_exact by assumption.
  eexists. split; [reflexivity|].
  rewrite length_map, length_seq, ceil_div_rounds_up by assumption.
  reflexivity.
Qed.

Lemma executor_blocks_ascending o b bs :
  0 <= o -> 1 <= b -> o + b - 1 < size_max ->
  executor_blocks o b = Some bs -> ascending bs.
Proof.
  intros Ho Hb Hfit Hbs j j' blk blk' Hj Hj' Hlt.
  destruct (executor_blocks_lookup o b bs j blk Ho Hb Hfit Hbs Hj) as [_ ->].
  destruct (executor_blocks_lookup o b bs j' blk' Ho Hb Hfit Hbs Hj') as [_ ->].
  simpl. nia.
Qed.

Lemma executor_blocks_covers o b bs :
  0 <= o -> 1 <= b -> o + b - 1 < size_max ->
  executor_blocks o b = Some bs -> covers bs o.
Proof.
  intros Ho Hb Hfit Hbs x. split.
  - intros Hx.
    pose proof (Z.div_mod x b ltac:(lia)) as Hdm.
    pose proof (Z.mod_pos_bound x b ltac:(lia)) as Hm.
    assert (Hq : 0 <= x / b) by (apply Z.div_pos; lia).
    assert (Hlt : x / b < (o + b - 1) / b).
    { pose proof (block_count_reaches o b Ho Hb) as Hr.
      assert ((x / b) * b < ((o + b - 1) / b) * b) by lia. nia. }
    exists (block_of o b (Z.to_nat (x / b))). split.
    + unfold executor_blocks in Hbs.
      rewrite block_count_exact in Hbs by assumption.
      injection Hbs as <-. apply in_map, in_seq. lia.
    + unfold block_of. rewrite Z2Nat.id by lia.
      rewrite block_lo_exact, block_hi_exact by (assumption || lia).
      simpl. lia.
  - intros (blk & Hin & Hx).
    apply list_elem_of_In, list_elem_of_lookup in Hin as [j Hj].
    destruct (executor_blocks_lookup o b bs j blk Ho Hb Hfit Hbs Hj)
      as [Hlt ->].
    simpl in Hx. lia.
Qed.

Lemma executor_blocks_nonempty o b bs blk :
  is_size o -> is_size b -> 1 <= b ->
  executor_blocks o b = Some bs -> In blk bs -> blk.1 < blk.2.
Proof.
  intros [Ho1 Ho2] [Hb1 Hb2] Hb Hbs Hin.
  destruct (Z_lt_le_dec (o + b - 1) size_max) as [Hfit|Hover].
  - apply list_elem_of_In, list_elem_of_lookup in Hin as [j Hj].
    destruct (executor_blocks_lookup o b bs j blk Ho1 Hb Hfit Hbs Hj)
      as [Hlt ->].
    pose proof (block_in_extent o b (Z.of_nat j) Ho1 Hb ltac:(lia)).
    simpl. lia.
  - unfold executor_blocks in Hbs.
    rewrite block_count_wrapped in Hbs by (unfold is_size; lia).
    injection Hbs as <-. destruct Hin.
Qed.

Lemma executor_blocks_extent_zero b :
  1 <= b -> is_size b -> executor_blocks 0 b = Some [].
Proof.
  intros Hb [_ Hb2]. unfold executor_blocks.
  rewrite block_count_exact by lia.
  replace ((0 + b - 1) / b) with 0 by (symmetry; apply Z.div_small; lia).
  reflexivity.
Qed.

Lemma executor_blocks_defined o b :
  b <> 0 -> exists bs, executor_blocks o b = Some bs.
Proof.
  intros Hb. unfold executor_blocks. rewrite block_count_defined by exact Hb.
  eexists. reflexivity.
Qed.

(** ** The executor as a sequence of invocations *)

Section Calls.

Context {St : Type}.
Implicit Types (kernels : list (micro_kernel_t St)) (s : St).

Lemma run_calls_app kernels cs1 cs2 s :
  run_calls kernels (cs1 ++ cs2) s
  = match run_calls kernels cs1 s with
    | Some s' => run_calls kernels cs2 s'
    | None => None
    end.
Proof.
  revert s. induction cs1 as [|c cs1 IH]; intros s; simpl.
  - reflexivity.
  - destruct (run_call kernels c s) as [s'|]; [apply IH|reflexivity].
Qed.

Lemma inner_loop_calls kernels (blk : Z * Z) (count start : nat) s :
  for_range count (Z.of_nat start)
    (fun i s =>
       match kernels !! Z.to_nat i with
       | Some k => action k (arg k) blk.1 blk.2 s
       | None => None
       end) s
  = run_calls kernels (map (fun i => (i, blk)) (seq start count)) s.
Proof.
  revert start s. induction count as [|count IH]; intros start s; simpl.
  - reflexivity.
  - unfold run_call at 1. simpl. rewrite Nat2Z.id.
    destruct (kernels !! start) as [k|]; [|reflexivity].
    destruct (action k (arg k) blk.1 blk.2 s) as [s'|]; [|reflexivity].
    replace (Z.of_nat start + 1) with (Z.of_nat (S start)) by lia.
    apply IH.
Qed.

Lemma eval_block_calls kernels o b (j : nat) s :
  eval_block kernels o b (Z.of_nat j) s
  = run_calls kernels
      (map (fun i => (i, block_of o b j)) (seq 0 (length kernels))) s.
Proof.
  unfold eval_block.
  exact (inner_loop_calls kernels (block_of o b j) (length kernels) 0 s).
Qed.

Lemma outer_loop_calls kernels o b (count start : nat) s :
  for_range count (Z.of_nat start) (eval_block kernels o b) s
  = run_calls kernels
      (block_major (length kernels) (map (block_of o b) (seq start count)))
      s.
Proof.
  revert start s. induction count as [|count IH]; intros start s; simpl.
  - reflexivity.
  - unfold block_major in *. rewrite run_calls_app, <- eval_block_calls.
    destruct (eval_block kernels o b (Z.of_nat start) s) as [s'|];
      [|reflexivity].
    replace (Z.of_nat start + 1) with (Z.of_nat (S start)) by lia.
    apply IH.
Qed.

(** One pass is the block-major sequence of invocations over the blocks
    computed from the extent of the first kernel. *)
Lemma eval_micro_kernels_calls kernels k0 b s :
  kernels !! 0%nat = Some k0 ->
  eval_micro_kernels kernels b s
  = match executor_blocks (o_sites (arg k0)) b with
    | Some bs => run_calls kernels (block_major (length kernels) bs) s
    | None => None
    end.
Proof.
  intros Hk0. unfold eval_micro_kernels, executor_blocks. rewrite Hk0.
  destruct (block_count (o_sites (arg k0)) b) as [nb|]; [|reflexivity].
  exact (outer_loop_calls kernels (o_sites (arg k0)) b (Z.to_nat nb) 0 s).
Qed.

End Calls.

Lemma block_major_index n bs c : In c (block_major n bs) -> (c.1 < n)%nat.
Proof.
  unfold block_major. rewrite in_flat_map. intros (blk & _ & Hc).
  apply in_map_iff in Hc as (i & <- & Hi). apply in_seq in Hi. simpl. lia.
Qed.

Lemma block_major_block n bs c : In c (block_major n bs) -> In c.2 bs.
Proof.
  unfold block_major. rewrite in_flat_map. intros (blk & Hb & Hc).
  apply in_map_iff in Hc as (i & <- & Hi). exact Hb.
Qed.

Lemma block_major_length n bs :
  length (block_major n bs) = (length bs * n)%nat.
Proof.
  unfold block_major. induction bs as [|blk bs IH]; cbn [flat_map].
  - reflexivity.
  - unfold call in *. rewrite length_app, IH, length_map, length_seq.
    simpl. lia.
Qed.

Lemma recorders_length args : length (recorders args) = length args.
Proof. unfold recorders. apply length_imap. Qed.

Lemma recorders_run args cs log :
  (forall c, In c cs -> (c.1 < length args)%nat) ->
  run_calls (recorders args) cs log = Some (log ++ cs).
Proof.
  revert log. induction cs as [|c cs IH]; intros log Hcs; simpl.
  - rewrite app_nil_r. reflexivity.
  - unfold run_call, recorders. rewrite list_lookup_imap.
    destruct (lookup_lt_is_Some_2 args c.1 (Hcs c (or_introl eq_refl)))
      as [a Ha].
    rewrite Ha. simpl. rewrite IH by (intros c' Hc'; apply Hcs; right; exact Hc').
    rewrite <- app_assoc. simpl. destruct c as [i [i0 i1]]. reflexivity.
Qed.

Lemma recorders_eval args a0 b :
  args !! 0%nat = Some a0 ->
  eval_micro_kernels (recorders args) b []
  = match executor_blocks (o_sites a0) b with
    | Some bs => Some (block_major (length args) bs)
    | None => None
    end.
Proof.
  intros Ha0.
  assert (Hk0 : recorders args !! 0%nat = Some (recorder 0 a0)).
  { unfold recorders. rewrite list_lookup_imap, Ha0. reflexivity. }
  rewrite (eval_micro_kernels_calls _ _ b [] Hk0). simpl.
  destruct (executor_blocks (o_sites a0) b) as [bs|]; [|reflexivity].
  rewrite recorders_length, recorders_run; [reflexivity|].
  intros c Hc. exact (block_major_index _ _ _ Hc).
Qed.

Lemma ascending_disjoint bs :
  ascending bs -> pairwise_disjoint bs.
Proof.
  intros Hasc j j' blk blk' Hj Hj' Hne x [Hx Hx'].
  destruct (Nat.lt_total j j') as [Hlt|[Heq|Hgt]]; [|contradiction|].
  - pose proof (Hasc j j' blk blk' Hj Hj' Hlt). lia.
  - pose proof (Hasc j' j blk' blk Hj' Hj Hgt). lia.
Qed.

Lemma block_hi_le_extent o b j : block_hi o b j <= o.
Proof. unfold block_hi. lia. Qed.

Lemma executor_blocks_within o b bs blk :
  executor_blocks o b = Some bs -> In blk bs -> blk.2 <= o.
Proof.
  unfold executor_blocks. destruct (block_count o b) as [nb|]; [|discriminate].
  intros [= <-] Hin. apply in_map_iff in Hin as (j & <- & _).
  apply block_hi_le_extent.
Qed.

(** ** Partition of the extent *)

(** C2, amended: when [o_sites + block_size - 1] fits [size_t], the blocks
    [[min(j*B, O), min(j*B + B, O))] that the executor goes through for
    [j = 0 .. ceil(O/B) - 1] are pairwise disjoint, cover exactly [[0, O)]
    and ascend with [j]; for [O = 16], [B = 5] they are [[0,5)], [[5,10)],
    [[10,15)], [[15,16)]. *)
Theorem executor_blocks_tile_extent :
  executor_blocks 16 5 = Some [(0, 5); (5, 10); (10, 15); (15, 16)] /\
  forall o b,
    0 <= o -> 1 <= b -> o + b - 1 < size_max ->
    exists bs,
      executor_blocks o b = Some bs /\
      length bs = Z.to_nat (ceil_div o b) /\
      tiles bs o.
Proof.
  split; [reflexivity|].
  intros o b Ho Hb Hfit.
  destruct (executor_blocks_length o b Ho Hb Hfit) as (bs & Hbs & Hlen).
  exists bs. split; [exact Hbs|]. split; [exact Hlen|].
  pose proof (executor_blocks_ascending o b bs Ho Hb Hfit Hbs) as Hasc.
  split; [apply ascending_disjoint; exact Hasc|].
  split; [apply (executor_blocks_covers o b bs Ho Hb Hfit Hbs)|exact Hasc].
Qed.

Lemma executor_blocks_tile_extent_witness :
  exists bs,
    executor_blocks 17 5 = Some bs /\
    length bs = Z.to_nat (ceil_div 17 5) /\
    tiles bs 17.
Proof.
  apply (proj2 executor_blocks_tile_extent 17 5); [lia|lia|reflexivity].
Defined.

(** With [O = 16] and [B = 2^64 - 1] the sum [O + B - 1] wraps around to
    [14], the block count is [0], and no block covers site [0]. *)
Lemma executor_blocks_wrap_counterexample :
  0 <= 16 /\ 1 <= 2 ^ 64 - 1 /\
  ~ (exists bs, executor_blocks 16 (2 ^ 64 - 1) = Some bs /\ tiles bs 16).
Proof.
  split; [lia|]. split; [lia|].
  intros (bs & Hbs & _ & Hcov & _).
  vm_compute in Hbs. injection Hbs as <-.
  destruct (proj1 (Hcov 0) ltac:(lia)) as (blk & [] & _).
Qed.

(** ** Order of the invocations *)

(** C4: over a non-empty schedule, a pass is the sequence of invocations
    that, block after block, runs every micro-kernel in schedule order on
    the block before going to the next block; the blocks are computed from
    the extent of the first micro-kernel's view set and lie within it. *)
Theorem eval_micro_kernels_block_major {St : Type}
    (kernels : list (micro_kernel_t St)) (k0 : micro_kernel_t St)
    (block_size : Z) (s : St) :
  kernels !! 0%nat = Some k0 ->
  eval_micro_kernels kernels block_size s
  = match executor_blocks (o_sites (arg k0)) block_size with
    | Some bs => run_calls kernels (block_major (length kernels) bs) s
    | None => None
    end
  /\ eval_micro_kernels (recorders (map arg kernels)) block_size []
     = match executor_blocks (o_sites (arg k0)) block_size with
       | Some bs => Some (block_major (length kernels) bs)
       | None => None
       end
  /\ forall bs blk,
       executor_blocks (o_sites (arg k0)) block_size = Some bs ->
       In blk bs -> blk.2 <= o_sites (arg k0).
Proof.
  intros Hk0. split; [exact (eval_micro_kernels_calls kernels k0 _ s Hk0)|].
  split.
  - assert (Ha0 : map arg kernels !! 0%nat = Some (arg k0)).
    { destruct kernels as [|k ks]; [discriminate|].
      simpl in *. congruence. }
    rewrite (recorders_eval _ _ block_size Ha0), length_map. reflexivity.
  - intros bs blk Hbs Hin. exact (executor_blocks_within _ _ _ _ Hbs Hin).
Qed.

Lemma eval_micro_kernels_block_major_witness :
  eval_micro_kernels (recorders (map arg expression)) 5 []
  = Some (block_major 4 [(0, 5); (5, 10); (10, 15); (15, 17)]).
Proof.
  destruct (eval_micro_kernels_block_major expression
              (mk_kernel (mk_su3_mul Z.mul plain) views_c_a_b) 5
              example_memory eq_refl) as (_ & Hlog & _).
  exact Hlog.
Defined.

(** ** Block size and block count *)

(** C8, amended: with [block_size = 0] the block count is a division by
    zero and the pass is undefined; for every [block_size >= 1] the
    division is defined and the double loop ends; when in addition
    [o_sites + block_size - 1] is within [size_t], the value of the
    division is [ceil(extent / block_size)] and the double loop ends after
    that many blocks. *)
Theorem block_count_is_ceil_div :
  (forall o, block_count o 0 = None) /\
  (forall (St : Type) (kernels : list (micro_kernel_t St)) (s : St),
     eval_micro_kernels kernels 0 s = None) /\
  (forall o b,
     1 <= b ->
     block_count o b = Some (size_sub (size_add o b) 1 / b) /\
     forall args a0,
       args !! 0%nat = Some a0 -> o_sites a0 = o ->
       exists bs,
         executor_blocks o b = Some bs /\
         eval_micro_kernels (recorders args) b []
         = Some (block_major (length args) bs)) /\
  (forall o b,
     0 <= o -> 1 <= b -> o + b - 1 < size_max ->
     block_count o b = Some (ceil_div o b) /\
     forall args a0,
       args !! 0%nat = Some a0 -> o_sites a0 = o ->
       exists bs,
         length bs = Z.to_nat (ceil_div o b) /\
         eval_micro_kernels (recorders args) b []
         = Some (block_major (length args) bs)).
Proof.
  split; [intros o; reflexivity|]. split; [|split].
  - intros St kernels s. unfold eval_micro_kernels.
    destruct (kernels !! 0%nat); reflexivity.
  - intros o b Hb. split.
    + apply block_count_defined. lia.
    + intros args a0 Ha0 <-.
      destruct (executor_blocks_defined (o_sites a0) b ltac:(lia)) as [bs Hbs].
      exists bs. split; [exact Hbs|].
      rewrite (recorders_eval _ _ b Ha0), Hbs. reflexivity.
  - intros o b Ho Hb Hfit. split.
    + rewrite block_count_exact, ceil_div_rounds_up by assumption.
      reflexivity.
    + intros args a0 Ha0 <-.
      destruct (executor_blocks_length _ b Ho Hb Hfit) as (bs & Hbs & Hlen).
      exists bs. split; [exact Hlen|].
      rewrite (recorders_eval _ _ b Ha0), Hbs. reflexivity.
Qed.

Lemma block_count_is_ceil_div_witness :
  (block_count 17 (2 ^ 64 - 1)
   = Some (size_sub (size_add 17 (2 ^ 64 - 1)) 1 / (2 ^ 64 - 1)) /\
   exists bs,
     executor_blocks 17 (2 ^ 64 - 1) = Some bs /\
     eval_micro_kernels (recorders (map arg expression)) (2 ^ 64 - 1) []
     = Some (block_major (length (map arg expression)) bs)) /\
  block_count 17 5 = Some (ceil_div 17 5) /\
  exists bs,
    length bs = Z.to_nat (ceil_div 17 5) /\
    eval_micro_kernels (recorders (map arg expression)) 5 []
    = Some (block_major (length (map arg expression)) bs).
Proof.
  destruct block_count_is_ceil_div as (_ & _ & Hdefined & Hceil).
  split.
  - destruct (Hdefined 17 (2 ^ 64 - 1) ltac:(lia)) as [Hcount Hrun].
    split; [exact Hcount|].
    exact (Hrun (map arg expression) views_c_a_b eq_refl eq_refl).
  - destruct (Hceil 17 5 ltac:(lia) ltac:(lia) eq_refl) as [Hcount Hrun].
    split; [exact Hcount|].
    exact (Hrun (map arg expression) views_c_a_b eq_refl eq_refl).
Defined.

(** With extent [16] and [block_size = 2^64 - 1] the division is defined
    but gives [0] blocks, where [ceil(16 / block_size)] is [1]. *)
Lemma block_count_wrap_counterexample :
  1 <= 2 ^ 64 - 1 /\
  block_count 16 (2 ^ 64 - 1) = Some 0 /\
  ceil_div 16 (2 ^ 64 - 1) = 1 /\
  block_count 16 (2 ^ 64 - 1) <> Some (ceil_div 16 (2 ^ 64 - 1)).
Proof.
  split; [lia|]. split; [reflexivity|]. split; [reflexivity|].
  vm_compute. discriminate.
Qed.

(** ** The empty schedule *)

(** C9: the extent is read from [kernels[0]] before anything else, so for
    the empty schedule the pass is an access outside the vector, whatever
    the block size, and not a pass that does nothing; with kernel actions
    that cannot fail and a block size other than [0], the empty schedule
    is the only one whose pass is undefined. *)
Theorem eval_micro_kernels_empty_schedule :
  (forall (St : Type) (block_size : Z) (s : St),
     eval_micro_kernels (@nil (micro_kernel_t St)) block_size s = None) /\
  (forall (args : list micro_kernel_arg_t) (block_size : Z),
     block_size <> 0 ->
     (eval_micro_kernels (recorders args) block_size [] = None <-> args = [])).
Proof.
  split.
  - intros St block_size s. reflexivity.
  - intros args block_size Hb. destruct args as [|a0 rest].
    + split; reflexivity.
    + rewrite (recorders_eval (a0 :: rest) a0 block_size eq_refl).
      destruct (executor_blocks_defined (o_sites a0) block_size Hb)
        as [bs Hbs].
      rewrite Hbs. split; discriminate.
Qed.

Lemma eval_micro_kernels_empty_schedule_witness :
  eval_micro_kernels (recorders []) 5 [] = None <-> [] = @nil micro_kernel_arg_t.
Proof.
  apply (proj2 eval_micro_kernels_empty_schedule [] 5). discriminate.
Defined.

(** ** Non-empty blocks *)

(** C10: for [block_size >= 1] every invocation of a pass gets a range
    [[i0, i1)] with [i0 < i1]; when the extent is [0] the pass invokes no
    kernel action and leaves the state as it is. *)
Theorem eval_micro_kernels_nonempty_ranges {St : Type}
    (kernels : list (micro_kernel_t St)) (k0 : micro_kernel_t St)
    (block_size : Z) (s : St) :
  kernels !! 0%nat = Some k0 ->
  is_size (o_sites (arg k0)) -> is_size block_size -> 1 <= block_size ->
  exists log,
    eval_micro_kernels (recorders (map arg kernels)) block_size [] = Some log /\
    eval_micro_kernels kernels block_size s = run_calls kernels log s /\
    (forall c, In c log -> c.2.1 < c.2.2) /\
    (o_sites (arg k0) = 0 ->
     log = [] /\ eval_micro_kernels kernels block_size s = Some s).
Proof.
  intros Hk0 Ho Hb Hb1.
  destruct (executor_blocks_defined (o_sites (arg k0)) block_size ltac:(lia))
    as [bs Hbs].
  assert (Ha0 : map arg kernels !! 0%nat = Some (arg k0)).
  { destruct kernels as [|k ks]; [discriminate|]. simpl in *. congruence. }
  exists (block_major (length kernels) bs).
  rewrite (recorders_eval _ _ block_size Ha0), length_map, Hbs.
  rewrite (eval_micro_kernels_calls kernels k0 _ s Hk0), Hbs.
  split; [reflexivity|]. split; [reflexivity|]. split.
  - intros c Hc. apply block_major_block in Hc.
    exact (executor_blocks_nonempty _ _ _ _ Ho Hb Hb1 Hbs Hc).
  - intros Hzero. rewrite Hzero in Hbs.
    rewrite (executor_blocks_extent_zero block_size Hb1 Hb) in Hbs.
    injection Hbs as <-. split; reflexivity.
Qed.

Lemma eval_micro_kernels_nonempty_ranges_witness :
  exists log,
    eval_micro_kernels (recorders (map arg expression)) 5 [] = Some log /\
    eval_micro_kernels expression 5 example_memory
    = run_calls expression log example_memory /\
    (forall c, In c log -> c.2.1 < c.2.2) /\
    (o_sites views_c_a_b = 0 ->
     log = [] /\
     eval_micro_kernels expression 5 example_memory = Some example_memory).
Proof.
  apply (eval_micro_kernels_nonempty_ranges expression
           (mk_kernel (mk_su3_mul Z.mul plain) views_c_a_b) 5 example_memory
           eq_refl);
    [split; [discriminate|reflexivity] | split; [discriminate|reflexivity]
    | discriminate].
Defined.

(** ** Adding to a view set *)

Lemma add_first l mode self w :
  views self = [] ->
  add l mode self w
  = Done (mk_arg [mkViewContainer (next_id w)
                    (mkLatticeView (lat_data l) mode)] (lat_oSites l),
          mk_world (S (next_id w)) (next_id w :: live w)
                   (trace w ++ [ViewOpened (next_id w) (lat_data l) mode])).
Proof. intros Hv. unfold add, open_and_push. rewrite Hv. reflexivity. Qed.

Lemma add_later l mode self w :
  views self <> [] ->
  add l mode self w
  = if o_sites self =? lat_oSites l
    then Done (open_and_push l mode self w)
    else AssertFailed.
Proof.
  intros Hv. unfold add, ASSERT.
  destruct (views self) as [|x xs]; [contradiction|reflexivity].
Qed.

Lemma add_preserves_ok l mode self w self' w' :
  view_set_ok self w ->
  add l mode self w = Done (self', w') ->
  view_set_ok self' w'.
Proof.
  intros (Hnd & Hlive & Hw) Hadd.
  assert (Hpush : (self', w')
                  = open_and_push l mode (mk_arg (views self) (o_sites self')) w).
  { unfold add, ASSERT in Hadd.
    destruct (length (views self) =? 0)%nat.
    - injection Hadd as <- <-. reflexivity.
    - destruct (o_sites self =? lat_oSites l); [|discriminate].
      injection Hadd as <- <-. reflexivity. }
  unfold open_and_push in Hpush. simpl in Hpush. injection Hpush as -> ->.
  unfold view_set_ok, world_ok. simpl. split; [|split].
  - rewrite map_app. simpl. apply NoDup_app. split; [exact Hnd|].
    split; [|apply NoDup_singleton].
    intros id Hid Hin. apply list_elem_of_In in Hid, Hin.
    simpl in Hin. destruct Hin as [<-|[]].
    apply in_map_iff in Hid as (x & Hx & Hin).
    pose proof (Hw _ (Hlive x Hin)). lia.
  - intros x Hx. apply in_app_or in Hx as [Hx|[<-|[]]].
    + right. exact (Hlive x Hx).
    + left. reflexivity.
  - intros id [<-|Hid]; [lia|]. pose proof (Hw id Hid). lia.
Qed.

Lemma no_views_ok junk : view_set_ok (no_views junk) fresh_world.
Proof.
  split; [apply NoDup_nil_2|]. split; [intros x []|intros id []].
Qed.

(** C3: the first [add] records the outer-site count of the field as the
    extent and does not fail; a later [add] fails exactly when the count of
    the new field differs from the recorded extent, and otherwise appends
    the handle and keeps the extent.  The check is made by [add] itself,
    which runs no kernel action: adding a field of [5] sites after a field
    of [7] sites fails there. *)
Theorem add_checks_extent :
  (forall l mode self w,
     views self = [] ->
     exists self' w',
       add l mode self w = Done (self', w') /\
       o_sites self' = lat_oSites l /\
       length (views self') = 1%nat) /\
  (forall l mode self w,
     views self <> [] ->
     (add l mode self w = AssertFailed <-> lat_oSites l <> o_sites self) /\
     (lat_oSites l = o_sites self ->
      exists self' w',
        add l mode self w = Done (self', w') /\
        o_sites self' = o_sites self /\
        length (views self') = S (length (views self)))) /\
  (forall l7 l5 mode7 mode5 junk w,
     lat_oSites l7 = 7 -> lat_oSites l5 = 5 ->
     exists self1 w1,
       add l7 mode7 (no_views junk) w = Done (self1, w1) /\
       add l5 mode5 self1 w1 = AssertFailed).
Proof.
  split; [|split].
  - intros l mode self w Hv. rewrite (add_first l mode self w Hv).
    eexists _, _. split; [reflexivity|]. split; reflexivity.
  - intros l mode self w Hv. rewrite (add_later l mode self w Hv). split.
    + destruct (Z.eqb_spec (o_sites self) (lat_oSites l)) as [E|E].
      * split; [discriminate|congruence].
      * split; [congruence|reflexivity].
    + intros E. rewrite E, Z.eqb_refl.
      eexists _, _. split; [reflexivity|]. split; [reflexivity|].
      simpl. rewrite length_app. simpl. lia.
  - intros l7 l5 mode7 mode5 junk w H7 H5.
    rewrite (add_first l7 mode7 (no_views junk) w eq_refl).
    eexists _, _. split; [reflexivity|].
    rewrite add_later by discriminate. simpl. rewrite H7, H5. reflexivity.
Qed.

Lemma add_checks_extent_witness :
  (exists self' w',
     add lat_c AcceleratorWriteDiscard (no_views 0) fresh_world
     = Done (self', w') /\
     o_sites self' = lat_oSites lat_c /\
     length (views self') = 1%nat) /\
  (add (mkLattice 4 5) AcceleratorRead views_c_a_b fresh_world = AssertFailed
   <-> lat_oSites (mkLattice 4 5) <> o_sites views_c_a_b) /\
  (exists self1 w1,
     add (mkLattice 0 7) AcceleratorWriteDiscard (no_views 0) fresh_world
     = Done (self1, w1) /\
     add (mkLattice 1 5) AcceleratorRead self1 w1 = AssertFailed).
Proof.
  destruct add_checks_extent as (Hfirst & Hlater & Hexample).
  split; [|split].
  - exact (Hfirst lat_c AcceleratorWriteDiscard (no_views 0) fresh_world
             eq_refl).
  - refine (proj1 (Hlater (mkLattice 4 5) AcceleratorRead views_c_a_b
                     fresh_world _)).
    discriminate.
  - exact (Hexample (mkLattice 0 7) (mkLattice 1 5) AcceleratorWriteDiscard
             AcceleratorRead 0 fresh_world eq_refl eq_refl).
Defined.

(** ** Releasing a view set *)

Lemma closes_of_map id xs :
  closes_of id (map (fun x => ViewClosed (vc_id x)) xs)
  = count_occ Nat.eq_dec (map vc_id xs) id.
Proof.
  unfold closes_of. induction xs as [|x xs IH]; simpl.
  - reflexivity.
  - destruct (Nat.eq_dec (vc_id x) id) as [E|E].
    + subst id. rewrite Nat.eqb_refl. simpl. rewrite IH. reflexivity.
    + destruct (Nat.eqb_spec id (vc_id x)) as [E'|E']; [congruence|].
      exact IH.
Qed.

Lemma delete_all_closes xs w :
  NoDup (map vc_id xs) ->
  (forall x, In x xs -> In (vc_id x) (live w)) ->
  exists w',
    delete_all xs w = Some w' /\
    trace w' = trace w ++ map (fun x => ViewClosed (vc_id x)) xs /\
    forall id, In id (live w') <-> In id (live w) /\ ~ In id (map vc_id xs).
Proof.
  revert w. induction xs as [|x xs IH]; intros w Hnd Hlive; simpl.
  - exists w. split; [reflexivity|]. split; [rewrite app_nil_r; reflexivity|].
    intros id. tauto.
  - apply NoDup_cons in Hnd as [Hx Hnd].
    unfold delete_container.
    destruct (in_dec Nat.eq_dec (vc_id x) (live w)) as [Hin|Hout];
      [|exfalso; apply Hout, Hlive; left; reflexivity].
    set (w1 := mk_world (next_id w)
                 (List.remove Nat.eq_dec (vc_id x) (live w))
                 (trace w ++ [ViewClosed (vc_id x)])).
    destruct (IH w1 Hnd) as (w' & Hrun & Htrace & Hl).
    { intros y Hy. simpl. apply in_in_remove.
      - intros E. apply Hx. rewrite <- E.
        apply list_elem_of_In, in_map. exact Hy.
      - apply Hlive. right. exact Hy. }
    exists w'. split; [exact Hrun|]. split.
    + rewrite Htrace. simpl. rewrite <- app_assoc. reflexivity.
    + intros id. rewrite Hl. simpl. split.
      * intros [Hrem Hnot]. apply in_remove in Hrem as [Hid Hne].
        split; [exact Hid|]. intros [E|Hid']; [congruence|contradiction].
      * intros [Hid Hnot]. split.
        -- apply in_in_remove; [|exact Hid].
           intros E. apply Hnot. left. congruence.
        -- intros Hid'. apply Hnot. right. exact Hid'.
Qed.

(** C6: releasing a view set of [k] handles performs [k] close operations
    and nothing else, one for each handle and each exactly once; afterwards
    none of its containers is allocated. *)
Theorem release_closes_each_once (self : micro_kernel_arg_t) (w : view_world) :
  view_set_ok self w ->
  exists w' closed,
    release self w = Some w' /\
    trace w' = trace w ++ closed /\
    length closed = length (views self) /\
    forallb is_close closed = true /\
    (forall x, In x (views self) -> closes_of (vc_id x) closed = 1%nat) /\
    (forall x, In x (views self) -> ~ In (vc_id x) (live w')).
Proof.
  intros (Hnd & Hlive & _).
  destruct (delete_all_closes (views self) w Hnd Hlive)
    as (w' & Hrun & Htrace & Hl).
  exists w', (map (fun x => ViewClosed (vc_id x)) (views self)).
  split; [exact Hrun|]. split; [exact Htrace|].
  split; [apply length_map|]. split; [|split].
  - apply forallb_forall. intros e He.
    apply in_map_iff in He as (x & <- & _). reflexivity.
  - intros x Hx. rewrite closes_of_map.
    apply NoDup_count_occ'; [apply NoDup_ListNoDup; exact Hnd|].
    apply in_map. exact Hx.
  - intros x Hx Hin. apply Hl in Hin as [_ Hnot].
    apply Hnot, in_map. exact Hx.
Qed.

Lemma release_closes_each_once_witness :
  exists w' closed,
    release views_c_a_b
      (mk_world 3 [2; 1; 0]
         [ViewOpened 0 2 AcceleratorWriteDiscard;
          ViewOpened 1 0 AcceleratorRead;
          ViewOpened 2 1 AcceleratorRead])%nat = Some w' /\
    trace w' = [ViewOpened 0 2 AcceleratorWriteDiscard;
                ViewOpened 1 0 AcceleratorRead;
                ViewOpened 2 1 AcceleratorRead]%nat ++ closed /\
    length closed = length (views views_c_a_b) /\
    forallb is_close closed = true /\
    (forall x, In x (views views_c_a_b) ->
               closes_of (vc_id x) closed = 1%nat) /\
    (forall x, In x (views views_c_a_b) -> ~ In (vc_id x) (live w')).
Proof.
  apply (release_closes_each_once views_c_a_b).
  assert (Hbuilt :
            add3 lat_c lat_a lat_b (no_views 0) fresh_world
            = Done (views_c_a_b,
                    mk_world 3 [2; 1; 0]
                      [ViewOpened 0 2 AcceleratorWriteDiscard;
                       ViewOpened 1 0 AcceleratorRead;
                       ViewOpened 2 1 AcceleratorRead])%nat)
    by reflexivity.
  unfold add3 in Hbuilt.
  destruct (add lat_c AcceleratorWriteDiscard (no_views 0) fresh_world)
    as [[self1 w1]|] eqn:H1; [|discriminate].
  destruct (add lat_a AcceleratorRead self1 w1)
    as [[self2 w2]|] eqn:H2; [|discriminate].
  apply (add_preserves_ok _ _ _ _ _ _
           (add_preserves_ok _ _ _ _ _ _
              (add_preserves_ok _ _ _ _ _ _ (no_views_ok 0) H1) H2) Hbuilt).
Defined.

(** ** Loops *)

Section Loops.

Context {St : Type}.
Implicit Types (f h : St -> option St) (body : Z -> St -> option St) (s : St).

Lemma commute_sym f h : commute f h -> commute h f.
Proof. intros H s. symmetry. apply H. Qed.

Lemma for_range_ext body body' (n : nat) lo s :
  (forall x s, lo <= x < lo + Z.of_nat n -> body x s = body' x s) ->
  for_range n lo body s = for_range n lo body' s.
Proof.
  revert lo s. induction n as [|n IH]; intros lo s Hext; simpl.
  - reflexivity.
  - rewrite Hext by lia. destruct (body' lo s) as [s'|]; [|reflexivity].
    apply IH. intros x s0 Hx. apply Hext. lia.
Qed.

Lemma for_range_shift body (n : nat) lo k s :
  for_range n k (fun idx => body (lo + idx)) s
  = for_range n (lo + k) body s.
Proof.
  revert k s. induction n as [|n IH]; intros k s; simpl.
  - reflexivity.
  - destruct (body (lo + k) s) as [s'|]; [|reflexivity].
    rewrite IH. f_equal. lia.
Qed.

Lemma for_range_add body (n1 n2 : nat) lo s :
  for_range (n1 + n2) lo body s
  = andthen (for_range n1 lo body)
            (for_range n2 (lo + Z.of_nat n1) body) s.
Proof.
  unfold andthen. revert lo s. induction n1 as [|n1 IH]; intros lo s.
  - simpl. f_equal. lia.
  - cbn [Nat.add for_range].
    destruct (body lo s) as [s'|]; [|reflexivity].
    rewrite IH. replace (lo + 1 + Z.of_nat n1) with (lo + Z.of_nat (S n1))
      by lia.
    reflexivity.
Qed.

Lemma commute_for_range f body (n : nat) lo :
  (forall x, lo <= x < lo + Z.of_nat n -> commute f (body x)) ->
  commute f (for_range n lo body).
Proof.
  revert lo. induction n as [|n IH]; intros lo Hc s.
  - unfold andthen. simpl. destruct (f s); reflexivity.
  - assert (Hlo : commute f (body lo)) by (apply Hc; lia).
    assert (Hrest : commute f (for_range n (lo + 1) body))
      by (apply IH; intros x Hx; apply Hc; lia).
    specialize (Hlo s). unfold commute, andthen in *. simpl.
    destruct (body lo s) as [s1|] eqn:Hb.
    + rewrite <- (Hrest s1). destruct (f s) as [s2|] eqn:Hf.
      * rewrite Hlo. reflexivity.
      * rewrite <- Hlo. reflexivity.
    + destruct (f s) as [s2|]; [|reflexivity]. rewrite Hlo. reflexivity.
Qed.

Lemma commute_run_calls f (kernels : list (micro_kernel_t St)) cs :
  (forall c, In c cs -> commute f (run_call kernels c)) ->
  commute f (run_calls kernels cs).
Proof.
  induction cs as [|c cs IH]; intros Hc s.
  - unfold andthen. simpl. destruct (f s); reflexivity.
  - assert (Hhd : commute f (run_call kernels c))
      by (apply Hc; left; reflexivity).
    assert (Hrest : commute f (run_calls kernels cs))
      by (apply IH; intros c' Hc'; apply Hc; right; exact Hc').
    specialize (Hhd s). unfold commute, andthen in *. simpl.
    destruct (run_call kernels c s) as [s1|] eqn:Hb.
    + rewrite <- (Hrest s1). destruct (f s) as [s2|] eqn:Hf.
      * rewrite Hhd. reflexivity.
      * rewrite <- Hhd. reflexivity.
    + destruct (f s) as [s2|]; [|reflexivity]. rewrite Hhd. reflexivity.
Qed.

End Loops.

(** ** Field memory *)

Section FieldFacts.

Context {V : Type}.
Variable mul : V -> V -> V.
Implicit Types (m : memory V) (lv a b c : LatticeView).

Lemma mem_write_defined lv i x m :
  is_Some (cell m (lv_data lv) (Z.to_nat i)) ->
  exists m1, mem_write lv i x m = Some m1.
Proof.
  unfold cell, mem_write. intros Hc.
  destruct (m !! lv_data lv) as [row|]; [|destruct Hc; discriminate].
  apply lookup_lt_is_Some_1 in Hc.
  destruct (Nat.ltb_spec (Z.to_nat i) (length row)); [|lia].
  eexists. reflexivity.
Qed.

Lemma mem_write_cell lv i x m m1 :
  mem_write lv i x m = Some m1 ->
  cell m1 (lv_data lv) (Z.to_nat i) = Some x /\
  forall data j,
    ~ (data = lv_data lv /\ j = Z.to_nat i) ->
    cell m1 data j = cell m data j.
Proof.
  unfold mem_write. destruct (m !! lv_data lv) as [row|] eqn:Hrow;
    [|discriminate].
  destruct (Nat.ltb_spec (Z.to_nat i) (length row)) as [Hlt|]; [|discriminate].
  intros [= <-]. pose proof (lookup_lt_Some _ _ _ Hrow) as Hd.
  unfold cell. split.
  - rewrite list_lookup_insert_eq by exact Hd.
    apply list_lookup_insert_eq. exact Hlt.
  - intros data j Hne. destruct (Nat.eq_dec data (lv_data lv)) as [->|Hdata].
    + rewrite list_lookup_insert_eq, Hrow by exact Hd.
      apply list_lookup_insert_ne. intros E. apply Hne. split; congruence.
    + rewrite list_lookup_insert_ne by congruence. reflexivity.
Qed.

Lemma su3_site_defined a b c i m x y :
  cell m (lv_data b) (Z.to_nat i) = Some x ->
  cell m (lv_data c) (Z.to_nat i) = Some y ->
  is_Some (cell m (lv_data a) (Z.to_nat i)) ->
  exists m1, su3_site mul a b c i m = Some m1 /\
             mem_write a i (mul x y) m = Some m1.
Proof.
  intros Hx Hy Ha. unfold su3_site, mem_read. rewrite Hx, Hy.
  destruct (mem_write_defined a i (mul x y) m Ha) as [m1 Hm1].
  exists m1. split; exact Hm1.
Qed.

(** The loop of [mk_su3_mul] over the sites [lo .. lo + n - 1]. *)
Lemma su3_range a b c (n : nat) lo m :
  0 <= lo ->
  (forall i, lo <= i < lo + Z.of_nat n ->
             is_Some (cell m (lv_data a) (Z.to_nat i)) /\
             is_Some (cell m (lv_data b) (Z.to_nat i)) /\
             is_Some (cell m (lv_data c) (Z.to_nat i))) ->
  exists m',
    for_range n lo (su3_site mul a b c) m = Some m' /\
    (forall j, lo <= Z.of_nat j < lo + Z.of_nat n ->
               cell m' (lv_data a) j
               = product_at mul m (lv_data b) (lv_data c) j) /\
    (forall data j,
       ~ (data = lv_data a /\ lo <= Z.of_nat j < lo + Z.of_nat n) ->
       cell m' data j = cell m data j).
Proof.
  revert lo m. induction n as [|n IH]; intros lo m Hlo Hcells.
  - exists m. split; [reflexivity|]. split; [intros j Hj; lia|reflexivity].
  - destruct (Hcells lo ltac:(lia)) as (Ha & [x Hx] & [y Hy]).
    destruct (su3_site_defined a b c lo m x y Hx Hy Ha) as (m1 & Hstep & Hw).
    destruct (mem_write_cell _ _ _ _ _ Hw) as [Hnew Hold].
    destruct (IH (lo + 1) m1 ltac:(lia)) as (m' & Hrun & Hin & Hout).
    { intros i Hi. rewrite !Hold by (intros [_ E]; lia).
      apply Hcells. lia. }
    exists m'. simpl. rewrite Hstep. split; [exact Hrun|]. split.
    + intros j Hj. destruct (Z.eq_dec (Z.of_nat j) lo) as [E|E].
      * rewrite Hout by lia.
        replace j with (Z.to_nat lo) by lia.
        rewrite Hnew. unfold product_at. rewrite Hx, Hy. reflexivity.
      * rewrite Hin by lia. unfold product_at.
        rewrite !Hold by (intros [_ E']; lia). reflexivity.
    + intros data j Hne. rewrite Hout by (intros [E1 E2]; apply Hne; lia).
      apply Hold. intros [E1 E2]. apply Hne. lia.
Qed.

Lemma size_sub_exact i0 i1 :
  0 <= i0 <= i1 -> i1 < size_max -> size_sub i1 i0 = i1 - i0.
Proof. intros H0 H1. unfold size_sub. apply wrap_small. lia. Qed.

Lemma mk_su3_mul_plain arg (a b c : ViewContainer) i0 i1 m :
  views arg !! 0%nat = Some a ->
  views arg !! 1%nat = Some b ->
  views arg !! 2%nat = Some c ->
  mk_su3_mul mul plain arg i0 i1 m
  = for_range (Z.to_nat (size_sub i1 i0)) i0
      (su3_site mul (v a) (v b) (v c)) m.
Proof.
  intros Ha Hb Hc. unfold mk_su3_mul. rewrite Ha, Hb, Hc.
  pose proof (for_range_shift (su3_site mul (v a) (v b) (v c))
                (Z.to_nat (size_sub i1 i0)) i0 0 m) as Hshift.
  rewrite Z.add_0_r in Hshift. rewrite <- Hshift.
  apply for_range_ext. intros x s _. unfold su3_site. simpl.
  destruct (mem_read (v b) (i0 + x) s); [|reflexivity].
  destruct (mem_read (v c) (i0 + x) s); reflexivity.
Qed.

(** The logged run is the plain run, with three accesses per site. *)
Lemma logged_range a b c (n : nat) lo m log :
  for_range n lo
    (fun i s =>
       match peek logged b i s with
       | Some (x, s1) =>
           match peek logged c i s1 with
           | Some (y, s2) => poke logged a i (mul x y) s2
           | None => None
           end
       | None => None
       end) (m, log)
  = match for_range n lo (su3_site mul a b c) m with
    | Some m' => Some (m', log ++ range_accesses a b c n lo)
    | None => None
    end.
Proof.
  revert lo m log. induction n as [|n IH]; intros lo m log.
  - simpl. rewrite app_nil_r. reflexivity.
  - cbn [for_range range_accesses]. unfold su3_site at 1. simpl.
    destruct (mem_read b lo m) as [x|]; [|reflexivity]. simpl.
    destruct (mem_read c lo m) as [y|]; [|reflexivity]. simpl.
    destruct (mem_write a lo (mul x y) m) as [m1|]; [|reflexivity].
    rewrite IH. destruct (for_range n (lo + 1) (su3_site mul a b c) m1);
      [|reflexivity].
    rewrite <- !app_assoc. reflexivity.
Qed.

Lemma mk_su3_mul_logged arg (a b c : ViewContainer) i0 i1 m log :
  views arg !! 0%nat = Some a ->
  views arg !! 1%nat = Some b ->
  views arg !! 2%nat = Some c ->
  mk_su3_mul mul logged arg i0 i1 (m, log)
  = match mk_su3_mul mul plain arg i0 i1 m with
    | Some m' =>
        Some (m', log ++ range_accesses (v a) (v b) (v c)
                           (Z.to_nat (size_sub i1 i0)) i0)
    | None => None
    end.
Proof.
  intros Ha Hb Hc. rewrite (mk_su3_mul_plain arg a b c) by assumption.
  rewrite <- logged_range. unfold mk_su3_mul. rewrite Ha, Hb, Hc.
  pose proof (for_range_shift
                (fun i s =>
                   match peek logged (v b) i s with
                   | Some (x, s1) =>
                       match peek logged (v c) i s1 with
                       | Some (y, s2) => poke logged (v a) i (mul x y) s2
                       | None => None
                       end
                   | None => None
                   end) (Z.to_nat (size_sub i1 i0)) i0 0 (m, log)) as Hshift.
  rewrite Z.add_0_r in Hshift. exact Hshift.
Qed.

Lemma range_accesses_within a b c (n : nat) lo x :
  In x (range_accesses a b c n lo) ->
  lo <= access_site x < lo + Z.of_nat n.
Proof.
  revert lo. induction n as [|n IH]; intros lo; simpl.
  - intros [].
  - intros [<-|[<-|[<-|Hin]]]; simpl; try lia.
    apply IH in Hin. lia.
Qed.

(** C7: on views [(dest, left, right)] and a range [[i0, i1)] of sites
    the three fields have, [mk_su3_mul] returns with
    [dest[i] = left[i] * right[i]] for every [i] of the range, leaves
    every other site of every field as it was, and reads and writes no
    site outside the range. *)
Theorem mk_su3_mul_elementwise (arg : micro_kernel_arg_t)
    (dest left right : ViewContainer) (i0 i1 : Z) (m : memory V) :
  views arg !! 0%nat = Some dest ->
  views arg !! 1%nat = Some left ->
  views arg !! 2%nat = Some right ->
  0 <= i0 <= i1 -> i1 < size_max ->
  (forall i, i0 <= i < i1 ->
             is_Some (cell m (lv_data (v dest)) (Z.to_nat i)) /\
             is_Some (cell m (lv_data (v left)) (Z.to_nat i)) /\
             is_Some (cell m (lv_data (v right)) (Z.to_nat i))) ->
  exists m' log,
    mk_su3_mul mul logged arg i0 i1 (m, []) = Some (m', log) /\
    mk_su3_mul mul plain arg i0 i1 m = Some m' /\
    (forall i x y,
       i0 <= Z.of_nat i < i1 ->
       cell m (lv_data (v left)) i = Some x ->
       cell m (lv_data (v right)) i = Some y ->
       cell m' (lv_data (v dest)) i = Some (mul x y)) /\
    (forall data i,
       ~ (data = lv_data (v dest) /\ i0 <= Z.of_nat i < i1) ->
       cell m' data i = cell m data i) /\
    (forall x, In x log -> i0 <= access_site x < i1) /\
    log = range_accesses (v dest) (v left) (v right) (Z.to_nat (i1 - i0)) i0.
Proof.
  intros Ha Hb Hc Hrange Hmax Hcells.
  destruct (su3_range (v dest) (v left) (v right) (Z.to_nat (i1 - i0)) i0 m
              ltac:(lia)) as (m' & Hrun & Hin & Hout).
  { intros i Hi. apply Hcells. lia. }
  assert (Hplain : mk_su3_mul mul plain arg i0 i1 m = Some m').
  { rewrite (mk_su3_mul_plain arg dest left right) by assumption.
    rewrite size_sub_exact by assumption. exact Hrun. }
  exists m', (range_accesses (v dest) (v left) (v right)
                (Z.to_nat (i1 - i0)) i0).
  split.
  { rewrite (mk_su3_mul_logged arg dest left right) by assumption.
    rewrite Hplain, size_sub_exact by assumption. reflexivity. }
  split; [exact Hplain|]. split; [|split; [|split]].
  - intros i x y Hi Hx Hy. rewrite Hin by lia.
    unfold product_at. rewrite Hx, Hy. reflexivity.
  - intros data i Hne. apply Hout. intros [E1 E2]. apply Hne. lia.
  - intros x Hx. apply range_accesses_within in Hx. lia.
  - reflexivity.
Qed.

End FieldFacts.

(** ** Sites are independent of each other *)

Section Sites.

Context {V : Type}.
Implicit Types (m : memory V) (w : nat -> option V).

Lemma slice_lookup (i data : nat) m :
  slice i m !! data
  = match m !! data with Some r => Some (r !! i) | None => None end.
Proof.
  unfold slice. revert data. induction m as [|r m IH]; intros data.
  - reflexivity.
  - destruct data as [|data]; [reflexivity|]. simpl. apply IH.
Qed.

Lemma slice_put_site_ne (i j : nat) w m :
  i <> j -> slice j (put_site i w m) = slice j m.
Proof.
  intros Hne. apply list_eq. intros data.
  rewrite !slice_lookup. unfold put_site. rewrite list_lookup_imap.
  destruct (m !! data) as [r|]; simpl; [|reflexivity].
  destruct (w data) as [x|]; [|reflexivity].
  rewrite list_lookup_insert_ne by exact Hne. reflexivity.
Qed.

Lemma put_site_commute (i j : nat) w w' m :
  i <> j ->
  put_site j w' (put_site i w m) = put_site i w (put_site j w' m).
Proof.
  intros Hne. apply list_eq. intros data.
  unfold put_site. rewrite !list_lookup_imap.
  destruct (m !! data) as [r|]; simpl; [|reflexivity].
  destruct (w data) as [x|], (w' data) as [y|]; try reflexivity.
  f_equal. apply list_insert_insert_ne. congruence.
Qed.

Lemma site_step_commute
    (g g' : Z -> list (option V) -> option (nat -> option V)) (i j : Z) :
  0 <= i -> 0 <= j -> i <> j ->
  commute (site_step g i) (site_step g' j).
Proof.
  intros Hi Hj Hne m. unfold andthen, site_step.
  assert (Hn : Z.to_nat i <> Z.to_nat j) by lia.
  destruct (g i (slice (Z.to_nat i) m)) as [w|] eqn:Hg;
    destruct (g' j (slice (Z.to_nat j) m)) as [w'|] eqn:Hg';
    rewrite ?slice_put_site_ne by congruence;
    rewrite ?Hg, ?Hg'; try reflexivity.
  f_equal. apply put_site_commute. exact Hn.
Qed.

Lemma site_range_commute
    (g g' : Z -> list (option V) -> option (nat -> option V))
    (a b c d : Z) :
  0 <= a <= b -> b <= c <= d ->
  commute (for_range (Z.to_nat (d - c)) c (site_step g))
          (for_range (Z.to_nat (b - a)) a (site_step g')).
Proof.
  intros Hab Hcd. apply commute_for_range. intros y Hy.
  apply commute_sym, commute_for_range. intros x Hx.
  apply commute_sym, site_step_commute; lia.
Qed.

End Sites.

(** ** Tiling does not change the result *)

Section Tiling.

Context {V : Type}.
Variable kernels : list (micro_kernel_t (memory V)).
Hypothesis kernels_sitewise : forall k, In k kernels -> sitewise k.

Lemma commute_undefined (h : memory V -> option (memory V)) :
  commute (fun _ => None) h.
Proof. intros m. unfold andthen. destruct (h m); reflexivity. Qed.

Lemma lookup_sitewise i k : kernels !! i = Some k -> sitewise k.
Proof.
  intros Hk. apply kernels_sitewise, list_elem_of_In.
  exact (list_elem_of_lookup_2 _ _ _ Hk).
Qed.

Lemma call_commute (i i' : nat) (a b c : Z) :
  0 <= a <= b -> b <= c -> c < size_max ->
  commute (run_call kernels (i, (b, c))) (run_call kernels (i', (a, b))).
Proof.
  intros Hab Hbc Hc. unfold run_call. simpl.
  destruct (kernels !! i) as [k|] eqn:Hk; [|apply commute_undefined].
  destruct (kernels !! i') as [k'|] eqn:Hk';
    [|apply commute_sym, commute_undefined].
  destruct (lookup_sitewise i k Hk) as [g Hg].
  destruct (lookup_sitewise i' k' Hk') as [g' Hg'].
  intros m. unfold andthen.
  rewrite (Hg b c m) by lia. rewrite (Hg' a b m) by lia.
  pose proof (site_range_commute g g' a b b c ltac:(lia) ltac:(lia) m)
    as Hcomm.
  unfold andthen in Hcomm.
  destruct (for_range (Z.to_nat (c - b)) b (site_step g) m) as [m1|];
    destruct (for_range (Z.to_nat (b - a)) a (site_step g') m) as [m2|].
  - rewrite (Hg' a b m1), (Hg b c m2) by lia. exact Hcomm.
  - rewrite (Hg' a b m1) by lia. exact Hcomm.
  - rewrite (Hg b c m2) by lia. exact Hcomm.
  - reflexivity.
Qed.

Lemma call_split (i : nat) (a b c : Z) m :
  0 <= a <= b -> b <= c -> c < size_max ->
  run_call kernels (i, (a, c)) m
  = andthen (run_call kernels (i, (a, b))) (run_call kernels (i, (b, c))) m.
Proof.
  intros Hab Hbc Hc. unfold andthen, run_call. simpl.
  destruct (kernels !! i) as [k|] eqn:Hk; [|reflexivity].
  destruct (lookup_sitewise i k Hk) as [g Hg].
  rewrite (Hg a c m), (Hg a b m) by lia.
  replace (Z.to_nat (c - a))
    with (Z.to_nat (b - a) + Z.to_nat (c - b))%nat by lia.
  rewrite for_range_add. unfold andthen.
  destruct (for_range (Z.to_nat (b - a)) a (site_step g) m) as [m1|];
    [|reflexivity].
  rewrite (Hg b c m1) by lia. f_equal. lia.
Qed.

Lemma row_split (ix : list nat) (a b c : Z) m :
  0 <= a <= b -> b <= c -> c < size_max ->
  run_calls kernels (row ix (a, c)) m
  = run_calls kernels (row ix (a, b) ++ row ix (b, c)) m.
Proof.
  intros Hab Hbc Hc. revert m. induction ix as [|i ix IH]; intros m.
  - reflexivity.
  - cbn [row map app run_calls].
    rewrite (call_split i a b c m Hab Hbc Hc). unfold andthen.
    destruct (run_call kernels (i, (a, b)) m) as [m1|]; [|reflexivity].
    fold (row ix (a, b)). fold (row ix (b, c)). fold (row ix (a, c)).
    rewrite run_calls_app. cbn [run_calls].
    assert (Hcomm : commute (run_call kernels (i, (b, c)))
                            (run_calls kernels (row ix (a, b)))).
    { apply commute_run_calls. intros c' Hc'.
      apply in_map_iff in Hc' as (i' & <- & _).
      apply call_commute; assumption. }
    specialize (Hcomm m1). unfold andthen in Hcomm.
    destruct (run_call kernels (i, (b, c)) m1) as [m2|].
    + rewrite IH, run_calls_app.
      destruct (run_calls kernels (row ix (a, b)) m1) as [m3|].
      * rewrite <- Hcomm. reflexivity.
      * rewrite Hcomm. reflexivity.
    + destruct (run_calls kernels (row ix (a, b)) m1) as [m3|];
        [|reflexivity].
      rewrite <- Hcomm. reflexivity.
Qed.

Lemma row_empty (ix : list nat) (a : Z) m :
  0 <= a < size_max ->
  (forall i, In i ix -> (i < length kernels)%nat) ->
  run_calls kernels (row ix (a, a)) m = Some m.
Proof.
  intros Ha. induction ix as [|i ix IH]; intros His.
  - reflexivity.
  - cbn [row map run_calls]. unfold run_call. simpl.
    destruct (lookup_lt_is_Some_2 kernels i (His i (or_introl eq_refl)))
      as [k Hk].
    rewrite Hk. destruct (lookup_sitewise i k Hk) as [g Hg].
    rewrite (Hg a a m) by lia. rewrite Z.sub_diag. simpl.
    apply IH. intros i' Hi'. apply His. right. exact Hi'.
Qed.

Lemma chain_le a bs c : chain a bs c -> a <= c.
Proof.
  revert a. induction bs as [|blk bs IH]; intros a; simpl.
  - intros ->. lia.
  - intros (_ & Hle & Hrest). apply IH in Hrest. lia.
Qed.

Lemma chain_run bs (a c : Z) m :
  chain a bs c -> 0 <= a -> c < size_max ->
  run_calls kernels (block_major (length kernels) bs) m
  = run_calls kernels (row (seq 0 (length kernels)) (a, c)) m.
Proof.
  revert a m. induction bs as [|blk bs IH]; intros a m Hchain Ha Hc.
  - simpl in Hchain. subst c. symmetry. apply row_empty; [lia|].
    intros i Hi. apply in_seq in Hi. lia.
  - destruct Hchain as (Hlo & Hle & Hrest). pose proof (chain_le _ _ _ Hrest).
    rewrite (row_split _ a blk.2 c m) by lia.
    unfold block_major. cbn [flat_map]. fold (block_major (length kernels) bs).
    fold (row (seq 0 (length kernels)) blk).
    rewrite !run_calls_app. destruct blk as [lo hi]. simpl in *. subst lo.
    destruct (run_calls kernels (row (seq 0 (length kernels)) (a, hi)) m)
      as [m1|]; [|reflexivity].
    apply IH; [exact Hrest|lia|exact Hc].
Qed.

End Tiling.

Lemma executor_blocks_chain o b bs :
  0 <= o -> 1 <= b -> o + b - 1 < size_max ->
  executor_blocks o b = Some bs -> chain 0 bs o.
Proof.
  intros Ho Hb Hfit Hbs. unfold executor_blocks in Hbs.
  rewrite block_count_exact in Hbs by assumption. injection Hbs as <-.
  set (nb := (o + b - 1) / b).
  assert (Hnb : 0 <= nb) by (apply Z.div_pos; lia).
  assert (Hgen : forall count start,
             (start + count = Z.to_nat nb)%nat ->
             chain (Z.min (Z.of_nat start * b) o)
                   (map (block_of o b) (seq start count)) o).
  { induction count as [|count IH]; intros start Hsum; simpl.
    - pose proof (block_count_reaches o b Ho Hb). fold nb in H.
      replace (Z.of_nat start) with nb by lia. lia.
    - assert (Hj : 0 <= Z.of_nat start < (o + b - 1) / b) by (fold nb; lia).
      pose proof (block_in_extent o b _ Ho Hb Hj).
      rewrite block_lo_exact, block_hi_exact by assumption.
      split; [lia|]. split; [lia|].
      specialize (IH (S start) ltac:(lia)).
      replace (Z.of_nat (S start) * b) with (Z.of_nat start * b + b) in IH
        by lia.
      exact IH. }
  specialize (Hgen (Z.to_nat nb) 0%nat eq_refl).
  replace (Z.min (Z.of_nat 0 * b) o) with 0 in Hgen by lia. exact Hgen.
Qed.

Lemma untiled_row {St : Type} (pre kernels : list (micro_kernel_t St))
    (extent : Z) (s : St) :
  untiled kernels extent s
  = run_calls (pre ++ kernels)
      (row (seq (length pre) (length kernels)) (0, extent)) s.
Proof.
  revert pre s. induction kernels as [|k ks IH]; intros pre s.
  - reflexivity.
  - cbn [untiled length seq row map run_calls]. unfold run_call. simpl.
    rewrite list_lookup_middle by reflexivity.
    destruct (action k (arg k) 0 extent s) as [s'|]; [|reflexivity].
    rewrite (IH (pre ++ [k]) s'), <- app_assoc, length_app. simpl.
    rewrite Nat.add_1_r. reflexivity.
Qed.

Lemma untiled_calls {St : Type} (kernels : list (micro_kernel_t St))
    (extent : Z) (s : St) :
  untiled kernels extent s
  = run_calls kernels (row (seq 0 (length kernels)) (0, extent)) s.
Proof. exact (untiled_row [] kernels extent s). Qed.

(** When the block count does not wrap around, a pass is one row of
    invocations over the whole extent. *)
Lemma eval_micro_kernels_one_row {V : Type}
    (kernels : list (micro_kernel_t (memory V))) k0 block_size m :
  (forall k, In k kernels -> sitewise k) ->
  kernels !! 0%nat = Some k0 ->
  0 <= o_sites (arg k0) -> 1 <= block_size ->
  o_sites (arg k0) + block_size - 1 < size_max ->
  eval_micro_kernels kernels block_size m
  = run_calls kernels
      (row (seq 0 (length kernels)) (0, o_sites (arg k0))) m.
Proof.
  intros Hsw Hk0 Ho Hb Hfit.
  rewrite (eval_micro_kernels_calls kernels k0 block_size m Hk0).
  destruct (executor_blocks_length _ block_size Ho Hb Hfit) as (bs & Hbs & _).
  rewrite Hbs.
  apply (chain_run kernels Hsw bs 0 (o_sites (arg k0)) m
           (executor_blocks_chain _ _ _ Ho Hb Hfit Hbs)); lia.
Qed.

(** ** [mk_su3_mul] works site by site *)

Section Su3Sitewise.

Context {V : Type}.
Variable mul : V -> V -> V.

Lemma put_site_single (n data : nat) (x : V) (m : memory V) r :
  m !! data = Some r ->
  put_site n (fun d => if Nat.eqb d data then Some x else None) m
  = <[data := <[n := x]> r]> m.
Proof.
  intros Hr. apply list_eq. intros d. unfold put_site.
  rewrite list_lookup_imap. destruct (Nat.eqb_spec d data) as [->|Hne].
  - rewrite Hr. simpl.
    rewrite list_lookup_insert_eq by exact (lookup_lt_Some _ _ _ Hr).
    reflexivity.
  - rewrite list_lookup_insert_ne by congruence.
    destruct (m !! d); reflexivity.
Qed.

Lemma su3_site_is_site_step (a b c : LatticeView) (i : Z) (m : memory V) :
  su3_site mul a b c i m = site_step (fun _ => su3_g mul a b c) i m.
Proof.
  unfold su3_site, site_step, su3_g, mem_read, mem_write, cell.
  rewrite !slice_lookup.
  destruct (m !! lv_data b) as [rb|]; [|reflexivity].
  destruct (rb !! Z.to_nat i) as [x|]; [|reflexivity].
  destruct (m !! lv_data c) as [rc|]; [|reflexivity].
  destruct (rc !! Z.to_nat i) as [y|]; [|reflexivity].
  destruct (m !! lv_data a) as [ra|] eqn:Hra; [|reflexivity].
  destruct (Nat.ltb_spec (Z.to_nat i) (length ra)) as [Hlt|Hge].
  - destruct (lookup_lt_is_Some_2 ra _ Hlt) as [z Hz]. rewrite Hz.
    f_equal. symmetry. apply put_site_single. exact Hra.
  - rewrite (lookup_ge_None_2 ra _ Hge). reflexivity.
Qed.

Lemma mk_su3_mul_sitewise (arg : micro_kernel_arg_t)
    (a b c : ViewContainer) :
  views arg !! 0%nat = Some a ->
  views arg !! 1%nat = Some b ->
  views arg !! 2%nat = Some c ->
  sitewise (mk_kernel (mk_su3_mul mul plain) arg).
Proof.
  intros Ha Hb Hc. exists (fun _ => su3_g mul (v a) (v b) (v c)).
  intros i0 i1 m Hrange Hmax. simpl.
  rewrite (mk_su3_mul_plain mul arg a b c) by assumption.
  rewrite size_sub_exact by assumption.
  apply for_range_ext. intros x s _. apply su3_site_is_site_step.
Qed.

End Su3Sitewise.

Lemma expression_sitewise : forall k, In k expression -> sitewise k.
Proof.
  intros k [<-|[<-|[<-|[<-|[]]]]];
    eapply mk_su3_mul_sitewise; reflexivity.
Qed.

Lemma small_expression_sitewise :
  forall k, In k small_expression -> sitewise k.
Proof. intros k [<-|[]]. eapply mk_su3_mul_sitewise; reflexivity. Qed.

(** ** Equivalence with the untiled baseline *)

(** C1, amended: for a non-empty schedule of kernel actions that work
    site by site and every [block_size >= 1] for which
    [o_sites + block_size - 1] fits [size_t], a pass of the block-tiled
    executor gives exactly the field contents that running every kernel
    action once over [[0, extent)] in schedule order gives (and is
    undefined exactly when that is). *)
Theorem eval_micro_kernels_equals_untiled {V : Type}
    (kernels : list (micro_kernel_t (memory V)))
    (k0 : micro_kernel_t (memory V)) (block_size : Z) (m : memory V) :
  (forall k, In k kernels -> sitewise k) ->
  kernels !! 0%nat = Some k0 ->
  0 <= o_sites (arg k0) -> 1 <= block_size ->
  o_sites (arg k0) + block_size - 1 < size_max ->
  eval_micro_kernels kernels block_size m
  = untiled kernels (o_sites (arg k0)) m.
Proof.
  intros Hsw Hk0 Ho Hb Hfit.
  transitivity (run_calls kernels
                  (row (seq 0 (length kernels)) (0, o_sites (arg k0))) m).
  - apply eval_micro_kernels_one_row; assumption.
  - symmetry. apply untiled_calls.
Qed.

Lemma eval_micro_kernels_equals_untiled_witness :
  eval_micro_kernels expression 5 example_memory
  = untiled expression 17 example_memory.
Proof.
  apply (eval_micro_kernels_equals_untiled expression
           (mk_kernel (mk_su3_mul Z.mul plain) views_c_a_b) 5 example_memory
           expression_sitewise eq_refl);
    [discriminate | discriminate | reflexivity].
Defined.

(** On two sites with [block_size = 2^64 - 1] the block count wraps
    around to [0]: the pass leaves [c] as it is, the baseline stores
    [a * b] in it. *)
Lemma eval_micro_kernels_wrap_counterexample :
  (forall k, In k small_expression -> sitewise k) /\
  1 <= 2 ^ 64 - 1 /\
  eval_micro_kernels small_expression (2 ^ 64 - 1) small_memory
  = Some [[2; 3]; [5; 7]; [0; 0]] /\
  untiled small_expression 2 small_memory
  = Some [[2; 3]; [5; 7]; [10; 21]] /\
  eval_micro_kernels small_expression (2 ^ 64 - 1) small_memory
  <> untiled small_expression 2 small_memory.
Proof.
  split; [exact small_expression_sitewise|]. split; [lia|].
  split; [vm_compute; reflexivity|]. split; [vm_compute; reflexivity|].
  vm_compute. discriminate.
Qed.

(** ** Invariance under the block size *)

(** C5, amended: for a non-empty schedule of kernel actions that work
    site by site, any two block sizes [B1 >= 1] and [B2 >= 1] for which
    [o_sites + B - 1] fits [size_t] give the same field contents, which are
    those of the untiled baseline; this covers [B = 1], [B = O] and a [B]
    that does not divide [O]. *)
Theorem eval_micro_kernels_block_size_invariant {V : Type}
    (kernels : list (micro_kernel_t (memory V)))
    (k0 : micro_kernel_t (memory V)) (B1 B2 : Z) (m : memory V) :
  (forall k, In k kernels -> sitewise k) ->
  kernels !! 0%nat = Some k0 ->
  0 <= o_sites (arg k0) ->
  1 <= B1 -> o_sites (arg k0) + B1 - 1 < size_max ->
  1 <= B2 -> o_sites (arg k0) + B2 - 1 < size_max ->
  eval_micro_kernels kernels B1 m = eval_micro_kernels kernels B2 m /\
  eval_micro_kernels kernels B1 m = untiled kernels (o_sites (arg k0)) m.
Proof.
  intros Hsw Hk0 Ho HB1 Hfit1 HB2 Hfit2.
  pose proof (eval_micro_kernels_one_row kernels k0 B1 m Hsw Hk0 Ho HB1 Hfit1)
    as H1.
  pose proof (eval_micro_kernels_one_row kernels k0 B2 m Hsw Hk0 Ho HB2 Hfit2)
    as H2.
  split.
  - congruence.
  - rewrite H1. symmetry. apply untiled_calls.
Qed.

Lemma eval_micro_kernels_block_size_invariant_witness :
  (eval_micro_kernels expression 1 example_memory
   = eval_micro_kernels expression 5 example_memory /\
   eval_micro_kernels expression 1 example_memory
   = untiled expression 17 example_memory) /\
  (eval_micro_kernels expression 17 example_memory
   = eval_micro_kernels expression 5 example_memory /\
   eval_micro_kernels expression 17 example_memory
   = untiled expression 17 example_memory).
Proof.
  split.
  - apply (eval_micro_kernels_block_size_invariant expression
             (mk_kernel (mk_su3_mul Z.mul plain) views_c_a_b) 1 5
             example_memory expression_sitewise eq_refl);
      [discriminate | discriminate | reflexivity
      | discriminate | reflexivity].
  - apply (eval_micro_kernels_block_size_invariant expression
             (mk_kernel (mk_su3_mul Z.mul plain) views_c_a_b) 17 5
             example_memory expression_sitewise eq_refl);
      [discriminate | discriminate | reflexivity
      | discriminate | reflexivity].
Defined.

(** On two sites, [block_size = 1] computes [c = a * b] and
    [block_size = 2^64 - 1] computes nothing. *)
Lemma eval_micro_kernels_block_size_counterexample :
  (forall k, In k small_expression -> sitewise k) /\
  1 <= 1 /\ 1 <= 2 ^ 64 - 1 /\
  eval_micro_kernels small_expression 1 small_memory
  = Some [[2; 3]; [5; 7]; [10; 21]] /\
  eval_micro_kernels small_expression (2 ^ 64 - 1) small_memory
  = Some [[2; 3]; [5; 7]; [0; 0]] /\
  eval_micro_kernels small_expression 1 small_memory
  <> eval_micro_kernels small_expression (2 ^ 64 - 1) small_memory.
Proof.
  split; [exact small_expression_sitewise|]. split; [lia|]. split; [lia|].
  split; [vm_compute; reflexivity|]. split; [vm_compute; reflexivity|].
  vm_compute. discriminate.
Qed.

(** ** The example kernel on the benchmark's fields *)

Lemma mk_su3_mul_elementwise_witness :
  exists m' log,
    mk_su3_mul Z.mul logged views_c_a_b 5 10 (example_memory, [])
    = Some (m', log) /\
    mk_su3_mul Z.mul plain views_c_a_b 5 10 example_memory = Some m' /\
    (forall i x y,
       5 <= Z.of_nat i < 10 ->
       cell example_memory 0 i = Some x ->
       cell example_memory 1 i = Some y ->
       cell m' 2 i = Some (x * y)) /\
    (forall data i,
       ~ (data = 2%nat /\ 5 <= Z.of_nat i < 10) ->
       cell m' data i = cell example_memory data i) /\
    (forall x, In x log -> 5 <= access_site x < 10) /\
    log = range_accesses (mkLatticeView 2 AcceleratorWriteDiscard)
            (mkLatticeView 0 AcceleratorRead)
            (mkLatticeView 1 AcceleratorRead) (Z.to_nat (10 - 5)) 5.
Proof.
  apply (mk_su3_mul_elementwise Z.mul views_c_a_b
           (mkViewContainer 0 (mkLatticeView 2 AcceleratorWriteDiscard))
           (mkViewContainer 1 (mkLatticeView 0 AcceleratorRead))
           (mkViewContainer 2 (mkLatticeView 1 AcceleratorRead))
           5 10 example_memory eq_refl eq_refl eq_refl);
    [lia | reflexivity |].
  intros i Hi.
  assert (Hcases : i = 5 \/ i = 6 \/ i = 7 \/ i = 8 \/ i = 9) by lia.
  destruct Hcases as [E|[E|[E|[E|E]]]]; subst i;
    repeat split; eexists; reflexivity.
Defined.

(** * Further properties of the code *)

(** ** Sizes of the blocks *)

(** Every block but the last holds [block_size] sites; the last one ends
    at the extent and holds between [1] and [block_size] sites. *)
Theorem executor_blocks_sizes (o b : Z) (bs : list (Z * Z)) (j : nat)
    (blk : Z * Z) :
  0 <= o -> 1 <= b -> o + b - 1 < size_max ->
  executor_blocks o b = Some bs ->
  bs !! j = Some blk ->
  ((S j < length bs)%nat -> blk.2 - blk.1 = b) /\
  (S j = length bs -> blk.2 = o /\ 1 <= blk.2 - blk.1 <= b).
Proof.
  intros Ho Hb Hfit Hbs Hj.
  destruct (executor_blocks_lookup o b bs j blk Ho Hb Hfit Hbs Hj) as [Hlt ->].
  assert (Hlen : length bs = Z.to_nat ((o + b - 1) / b)).
  { unfold executor_blocks in Hbs.
    rewrite block_count_exact in Hbs by assumption. injection Hbs as <-.
    rewrite length_map, length_seq. reflexivity. }
  pose proof (block_in_extent o b (Z.of_nat j) Ho Hb ltac:(lia)) as Hin.
  simpl. split.
  - intros Hnext.
    pose proof (block_in_extent o b (Z.of_nat (S j)) Ho Hb ltac:(lia)). lia.
  - intros Hlast. pose proof (block_count_reaches o b Ho Hb) as Hreach.
    replace ((o + b - 1) / b) with (Z.of_nat j + 1) in Hreach by lia. lia.
Qed.

Lemma executor_blocks_sizes_witness :
  ((S 3 < length [(0, 5); (5, 10); (10, 15); (15, 17)])%nat -> 17 - 15 = 5) /\
  (S 3 = length [(0, 5); (5, 10); (10, 15); (15, 17)] ->
   17 = 17 /\ 1 <= 17 - 15 <= 5).
Proof.
  apply (executor_blocks_sizes 17 5 [(0, 5); (5, 10); (10, 15); (15, 17)] 3
           (15, 17));
    [lia | lia | reflexivity | reflexivity | reflexivity].
Defined.

(** ** A block size that holds the whole extent *)

(** With [1 <= extent <= block_size] there is one block, the whole extent,
    and a pass is the untiled baseline, whatever the kernel actions do. *)
Theorem eval_micro_kernels_single_block {St : Type}
    (kernels : list (micro_kernel_t St)) (k0 : micro_kernel_t St)
    (block_size : Z) (s : St) :
  kernels !! 0%nat = Some k0 ->
  1 <= o_sites (arg k0) <= block_size ->
  o_sites (arg k0) + block_size - 1 < size_max ->
  executor_blocks (o_sites (arg k0)) block_size
  = Some [(0, o_sites (arg k0))] /\
  eval_micro_kernels kernels block_size s
  = untiled kernels (o_sites (arg k0)) s.
Proof.
  intros Hk0 Ho Hfit. set (o := o_sites (arg k0)) in *.
  assert (Hone : (o + block_size - 1) / block_size = 1)
    by (symmetry; apply (Z.div_unique _ _ 1 (o - 1)); lia).
  assert (Hbs : executor_blocks o block_size = Some [(0, o)]).
  { unfold executor_blocks. rewrite block_count_exact, Hone by lia.
    simpl. unfold block_of.
    rewrite block_lo_exact, block_hi_exact by (rewrite ?Hone; lia).
    simpl. repeat f_equal. lia. }
  split; [exact Hbs|].
  rewrite (eval_micro_kernels_calls kernels k0 block_size s Hk0).
  fold o. rewrite Hbs, untiled_calls.
  unfold block_major. cbn [flat_map]. rewrite app_nil_r. reflexivity.
Qed.

Lemma eval_micro_kernels_single_block_witness :
  executor_blocks 17 20 = Some [(0, 17)] /\
  eval_micro_kernels expression 20 example_memory
  = untiled expression 17 example_memory.
Proof.
  apply (eval_micro_kernels_single_block expression
           (mk_kernel (mk_su3_mul Z.mul plain) views_c_a_b) 20 example_memory
           eq_refl);
    [split; discriminate | reflexivity].
Defined.

(** ** A block count that wraps around *)

(** When [o_sites + block_size - 1] does not fit [size_t], the block count
    is [0]: the pass invokes no kernel action and returns the state as it
    got it. *)
Theorem eval_micro_kernels_wrapped_is_noop {St : Type}
    (kernels : list (micro_kernel_t St)) (k0 : micro_kernel_t St)
    (block_size : Z) (s : St) :
  kernels !! 0%nat = Some k0 ->
  is_size (o_sites (arg k0)) -> is_size block_size -> 1 <= block_size ->
  size_max <= o_sites (arg k0) + block_size - 1 ->
  eval_micro_kernels kernels block_size s = Some s /\
  eval_micro_kernels (recorders (map arg kernels)) block_size [] = Some [].
Proof.
  intros Hk0 Ho Hb Hb1 Hover.
  assert (Hbs : executor_blocks (o_sites (arg k0)) block_size = Some []).
  { unfold executor_blocks.
    rewrite block_count_wrapped by assumption. reflexivity. }
  split.
  - rewrite (eval_micro_kernels_calls kernels k0 block_size s Hk0), Hbs.
    reflexivity.
  - assert (Ha0 : map arg kernels !! 0%nat = Some (arg k0)).
    { destruct kernels as [|k ks]; [discriminate|]. simpl in *. congruence. }
    rewrite (recorders_eval _ _ block_size Ha0), Hbs. reflexivity.
Qed.

Lemma eval_micro_kernels_wrapped_is_noop_witness :
  eval_micro_kernels small_expression (2 ^ 64 - 1) small_memory
  = Some small_memory /\
  eval_micro_kernels (recorders (map arg small_expression)) (2 ^ 64 - 1) []
  = Some [].
Proof.
  apply (eval_micro_kernels_wrapped_is_noop small_expression
           (mk_kernel (mk_su3_mul Z.mul plain) small_views) (2 ^ 64 - 1)
           small_memory eq_refl);
    [split; [discriminate|reflexivity] | split; [discriminate|reflexivity]
    | discriminate | discriminate].
Defined.

(** ** Fusing two schedules *)

Lemma untiled_app {St : Type} (ks1 ks2 : list (micro_kernel_t St))
    (extent : Z) (s : St) :
  untiled (ks1 ++ ks2) extent s
  = andthen (untiled ks1 extent) (untiled ks2 extent) s.
Proof.
  unfold andthen. revert s. induction ks1 as [|k ks1 IH]; intros s; simpl.
  - reflexivity.
  - destruct (action k (arg k) 0 extent s) as [s'|]; [apply IH|reflexivity].
Qed.

(** A pass over the concatenation of two schedules of site-by-site kernels
    with the same extent gives what a pass over the first followed by a
    pass over the second gives. *)
Theorem eval_micro_kernels_fused {V : Type}
    (ks1 ks2 : list (micro_kernel_t (memory V)))
    (k1 k2 : micro_kernel_t (memory V)) (block_size : Z) (m : memory V) :
  (forall k, In k (ks1 ++ ks2) -> sitewise k) ->
  ks1 !! 0%nat = Some k1 -> ks2 !! 0%nat = Some k2 ->
  o_sites (arg k1) = o_sites (arg k2) ->
  0 <= o_sites (arg k1) -> 1 <= block_size ->
  o_sites (arg k1) + block_size - 1 < size_max ->
  eval_micro_kernels (ks1 ++ ks2) block_size m
  = andthen (eval_micro_kernels ks1 block_size)
            (eval_micro_kernels ks2 block_size) m.
Proof.
  intros Hsw Hk1 Hk2 Hsame Ho Hb Hfit.
  assert (Hsw1 : forall k, In k ks1 -> sitewise k)
    by (intros k Hk; apply Hsw, in_or_app; left; exact Hk).
  assert (Hsw2 : forall k, In k ks2 -> sitewise k)
    by (intros k Hk; apply Hsw, in_or_app; right; exact Hk).
  assert (Hk : (ks1 ++ ks2) !! 0%nat = Some k1)
    by (destruct ks1; [discriminate|exact Hk1]).
  rewrite (eval_micro_kernels_one_row (ks1 ++ ks2) k1 block_size m Hsw Hk)
    by assumption.
  rewrite <- untiled_calls, untiled_app. unfold andthen.
  rewrite (eval_micro_kernels_one_row ks1 k1 block_size m Hsw1 Hk1)
    by assumption.
  rewrite <- untiled_calls.
  destruct (untiled ks1 (o_sites (arg k1)) m) as [m1|]; [|reflexivity].
  rewrite (eval_micro_kernels_one_row ks2 k2 block_size m1 Hsw2 Hk2)
    by (rewrite <- ?Hsame; assumption).
  rewrite <- untiled_calls, Hsame. reflexivity.
Qed.

Lemma eval_micro_kernels_fused_witness :
  eval_micro_kernels (expression ++ expression) 5 example_memory
  = andthen (eval_micro_kernels expression 5)
            (eval_micro_kernels expression 5) example_memory.
Proof.
  apply (eval_micro_kernels_fused expression expression
           (mk_kernel (mk_su3_mul Z.mul plain) views_c_a_b)
           (mk_kernel (mk_su3_mul Z.mul plain) views_c_a_b) 5 example_memory);
    [ intros k Hk; apply in_app_or in Hk as [Hk|Hk];
      exact (expression_sitewise k Hk)
    | reflexivity | reflexivity | reflexivity
    | discriminate | discriminate | reflexivity ].
Defined.

(** ** What a pass leaves alone *)

Section Footprint.

Context {V : Type}.
Implicit Types (m : memory V) (w : nat -> option V).

Lemma cell_put_site_ne (i j data : nat) w m :
  i <> j -> cell (put_site i w m) data j = cell m data j.
Proof.
  intros Hne. unfold cell, put_site. rewrite list_lookup_imap.
  destruct (m !! data) as [r|]; simpl; [|reflexivity].
  destruct (w data) as [x|]; [|reflexivity].
  apply list_lookup_insert_ne. exact Hne.
Qed.

Lemma cell_put_site_shape (i j data : nat) w m :
  is_Some (cell (put_site i w m) data j) <-> is_Some (cell m data j).
Proof.
  unfold cell, put_site. rewrite list_lookup_imap.
  destruct (m !! data) as [r|]; simpl; [|reflexivity].
  destruct (w data) as [x|]; [|reflexivity].
  rewrite !lookup_lt_is_Some, length_insert. reflexivity.
Qed.

Lemma same_above_refl extent m : same_above extent m m.
Proof. split; reflexivity. Qed.

Lemma same_above_trans extent m1 m2 m3 :
  same_above extent m1 m2 -> same_above extent m2 m3 ->
  same_above extent m1 m3.
Proof.
  intros [H1 S1] [H2 S2]. split.
  - intros data j Hj. rewrite H2, H1 by exact Hj. reflexivity.
  - intros data j. rewrite S2, S1. reflexivity.
Qed.

Lemma site_range_same_above
    (g : Z -> list (option V) -> option (nat -> option V))
    (n : nat) (lo extent : Z) m m' :
  0 <= lo -> lo + Z.of_nat n <= extent ->
  for_range n lo (site_step g) m = Some m' ->
  same_above extent m m'.
Proof.
  revert lo m. induction n as [|n IH]; intros lo m Hlo Hhi; simpl.
  - intros [= <-]. apply same_above_refl.
  - unfold site_step at 1.
    destruct (g lo (slice (Z.to_nat lo) m)) as [w|]; [|discriminate].
    intros Hrun. apply (same_above_trans extent m (put_site (Z.to_nat lo) w m)).
    + split.
      * intros data j Hj. apply cell_put_site_ne. lia.
      * intros data j. apply cell_put_site_shape.
    + apply (IH (lo + 1)); [lia|lia|exact Hrun].
Qed.

Lemma run_calls_same_above (kernels : list (micro_kernel_t (memory V)))
    (cs : list call) (extent : Z) m m' :
  (forall k, In k kernels -> sitewise k) ->
  extent < size_max ->
  (forall c, In c cs -> 0 <= c.2.1 <= c.2.2 /\ c.2.2 <= extent) ->
  run_calls kernels cs m = Some m' ->
  same_above extent m m'.
Proof.
  intros Hsw Hmax. revert m. induction cs as [|c cs IH]; intros m Hcs; simpl.
  - intros [= <-]. apply same_above_refl.
  - destruct (Hcs c (or_introl eq_refl)) as [Hc1 Hc2].
    unfold run_call. destruct (kernels !! c.1) as [k|] eqn:Hk; [|discriminate].
    destruct (lookup_sitewise kernels Hsw c.1 k Hk) as [g Hg].
    rewrite (Hg c.2.1 c.2.2 m) by lia.
    destruct (for_range (Z.to_nat (c.2.2 - c.2.1)) c.2.1 (site_step g) m)
      as [m1|] eqn:Hstep; [|discriminate].
    intros Hrun. apply (same_above_trans extent m m1).
    + apply (site_range_same_above g (Z.to_nat (c.2.2 - c.2.1)) c.2.1
               extent m m1); [lia|lia|exact Hstep].
    + apply IH; [|exact Hrun]. intros c' Hc'. apply Hcs. right. exact Hc'.
Qed.

End Footprint.

Lemma block_lo_nonneg o b j : 0 <= o -> 0 <= block_lo o b j.
Proof.
  intros Ho. unfold block_lo, size_mul, wrap.
  pose proof (Z.mod_pos_bound (j * b) size_max size_max_pos). lia.
Qed.

(** A pass over site-by-site kernels changes no site at or above the
    extent of the first kernel, in any field, and keeps the number of
    sites of every field, for every block size from [1] on. *)
Theorem eval_micro_kernels_stays_in_extent {V : Type}
    (kernels : list (micro_kernel_t (memory V)))
    (k0 : micro_kernel_t (memory V)) (block_size : Z) (m m' : memory V) :
  (forall k, In k kernels -> sitewise k) ->
  kernels !! 0%nat = Some k0 ->
  is_size (o_sites (arg k0)) -> is_size block_size -> 1 <= block_size ->
  eval_micro_kernels kernels block_size m = Some m' ->
  (forall data j,
     o_sites (arg k0) <= Z.of_nat j -> cell m' data j = cell m data j) /\
  (forall data j, is_Some (cell m' data j) <-> is_Some (cell m data j)).
Proof.
  intros Hsw Hk0 Ho Hb Hb1 Hrun.
  rewrite (eval_micro_kernels_calls kernels k0 block_size m Hk0) in Hrun.
  destruct (executor_blocks (o_sites (arg k0)) block_size) as [bs|] eqn:Hbs;
    [|discriminate].
  apply (run_calls_same_above kernels (block_major (length kernels) bs)
           (o_sites (arg k0)) m m' Hsw (proj2 Ho)); [|exact Hrun].
  intros c Hc. apply block_major_block in Hc.
  pose proof (executor_blocks_nonempty _ _ _ _ Ho Hb Hb1 Hbs Hc) as Hlt.
  pose proof (executor_blocks_within _ _ _ _ Hbs Hc) as Hle.
  assert (0 <= c.2.1).
  { unfold executor_blocks in Hbs.
    destruct (block_count (o_sites (arg k0)) block_size); [|discriminate].
    injection Hbs as <-. apply in_map_iff in Hc as (j & <- & _).
    apply block_lo_nonneg. exact (proj1 Ho). }
  lia.
Qed.

Lemma eval_micro_kernels_stays_in_extent_witness :
  (forall data j,
     2 <= Z.of_nat j ->
     cell [[2; 3]; [5; 7]; [10; 21]] data j = cell small_memory data j) /\
  (forall data j,
     is_Some (cell [[2; 3]; [5; 7]; [10; 21]] data j)
     <-> is_Some (cell small_memory data j)).
Proof.
  apply (eval_micro_kernels_stays_in_extent small_expression
           (mk_kernel (mk_su3_mul Z.mul plain) small_views) 1 small_memory
           [[2; 3]; [5; 7]; [10; 21]] small_expression_sitewise eq_refl);
    [split; [discriminate|reflexivity] | split; [discriminate|reflexivity]
    | discriminate | reflexivity].
Defined.

(** ** When [mk_su3_mul] is defined *)

Section Su3Bounds.

Context {V : Type}.
Variable mul : V -> V -> V.
Implicit Types (m : memory V).

Lemma mem_write_needs_cell (lv : LatticeView) i x m m1 :
  mem_write lv i x m = Some m1 ->
  is_Some (cell m (lv_data lv) (Z.to_nat i)).
Proof.
  unfold mem_write, cell. destruct (m !! lv_data lv) as [row|]; [|discriminate].
  destruct (Nat.ltb_spec (Z.to_nat i) (length row)) as [Hlt|]; [|discriminate].
  intros _. apply lookup_lt_is_Some_2. exact Hlt.
Qed.

Lemma su3_site_needs_cells (a b c : LatticeView) i m m1 :
  su3_site mul a b c i m = Some m1 ->
  (is_Some (cell m (lv_data a) (Z.to_nat i)) /\
   is_Some (cell m (lv_data b) (Z.to_nat i)) /\
   is_Some (cell m (lv_data c) (Z.to_nat i))) /\
  forall data j, j <> Z.to_nat i -> cell m1 data j = cell m data j.
Proof.
  unfold su3_site, mem_read.
  destruct (cell m (lv_data b) (Z.to_nat i)) as [x|] eqn:Hx; [|discriminate].
  destruct (cell m (lv_data c) (Z.to_nat i)) as [y|] eqn:Hy; [|discriminate].
  intros Hw. split.
  - split; [exact (mem_write_needs_cell _ _ _ _ _ Hw)|]. split; eexists; reflexivity.
  - intros data j Hj. apply (proj2 (mem_write_cell _ _ _ _ _ Hw)).
    intros [_ E]. contradiction.
Qed.

(** A loop of [mk_su3_mul] that returns has found every site it visits
    in the three fields. *)
Lemma su3_range_needs_cells (a b c : LatticeView) (n : nat) lo m m' :
  0 <= lo ->
  for_range n lo (su3_site mul a b c) m = Some m' ->
  forall i, lo <= i < lo + Z.of_nat n ->
            is_Some (cell m (lv_data a) (Z.to_nat i)) /\
            is_Some (cell m (lv_data b) (Z.to_nat i)) /\
            is_Some (cell m (lv_data c) (Z.to_nat i)).
Proof.
  revert lo m. induction n as [|n IH]; intros lo m Hlo Hrun i Hi.
  - lia.
  - simpl in Hrun.
    destruct (su3_site mul a b c lo m) as [m1|] eqn:Hstep; [|discriminate].
    destruct (su3_site_needs_cells a b c lo m m1 Hstep) as [Hcells Hrest].
    destruct (Z.eq_dec i lo) as [->|Hne]; [exact Hcells|].
    rewrite <- !Hrest by lia.
    apply (IH (lo + 1) m1); [lia|exact Hrun|lia].
Qed.

Lemma mk_su3_mul_needs_cells (arg : micro_kernel_arg_t) (i0 i1 : Z)
    (m m' : memory V) :
  0 <= i0 <= i1 -> i1 < size_max ->
  mk_su3_mul mul plain arg i0 i1 m = Some m' ->
  exists dest left right,
    views arg !! 0%nat = Some dest /\
    views arg !! 1%nat = Some left /\
    views arg !! 2%nat = Some right /\
    forall i, i0 <= i < i1 ->
              is_Some (cell m (lv_data (v dest)) (Z.to_nat i)) /\
              is_Some (cell m (lv_data (v left)) (Z.to_nat i)) /\
              is_Some (cell m (lv_data (v right)) (Z.to_nat i)).
Proof.
  intros Hrange Hmax Hrun.
  destruct (views arg !! 0%nat) as [dest|] eqn:H0;
    [|unfold mk_su3_mul in Hrun; rewrite H0 in Hrun; discriminate].
  destruct (views arg !! 1%nat) as [left|] eqn:H1;
    [|unfold mk_su3_mul in Hrun; rewrite H0, H1 in Hrun; discriminate].
  destruct (views arg !! 2%nat) as [right|] eqn:H2;
    [|unfold mk_su3_mul in Hrun; rewrite H0, H1, H2 in Hrun; discriminate].
  exists dest, left, right. repeat (split; [reflexivity|]).
  rewrite (mk_su3_mul_plain mul arg dest left right) in Hrun by assumption.
  rewrite size_sub_exact in Hrun by assumption.
  intros i Hi.
  apply (su3_range_needs_cells _ _ _ _ i0 m m' ltac:(lia) Hrun). lia.
Qed.

(** [mk_su3_mul] is undefined on a view set with fewer than three
    handles, whatever the range, and over a range [0 <= i0 <= i1] that
    holds a site one of its three fields lacks. *)
Theorem mk_su3_mul_undefined_outside (arg : micro_kernel_arg_t) (i0 i1 : Z)
    (m : memory V) :
  ((length (views arg) < 3)%nat ->
   mk_su3_mul mul plain arg i0 i1 m = None) /\
  (0 <= i0 <= i1 -> i1 < size_max ->
   forall (q : nat) (x : ViewContainer) (i : Z),
     (q < 3)%nat -> views arg !! q = Some x ->
     i0 <= i < i1 ->
     cell m (lv_data (v x)) (Z.to_nat i) = None ->
     mk_su3_mul mul plain arg i0 i1 m = None).
Proof.
  split.
  - intros Hlen. unfold mk_su3_mul.
    destruct (views arg) as [|x0 [|x1 [|x2 rest]]]; simpl in *;
      try reflexivity.
    lia.
  - intros Hrange Hmax q x i Hq Hx Hi Hcell.
    destruct (mk_su3_mul mul plain arg i0 i1 m) as [m'|] eqn:Hrun;
      [exfalso|reflexivity].
    destruct (mk_su3_mul_needs_cells arg i0 i1 m m' Hrange Hmax Hrun)
      as (dest & left & right & H0 & H1 & H2 & Hcells).
    destruct (Hcells i Hi) as (Hd & Hl & Hr).
    assert (Hnone : ~ is_Some (cell m (lv_data (v x)) (Z.to_nat i)))
      by (rewrite Hcell; intros [y Hy]; discriminate).
    destruct q as [|[|[|q]]]; [| | |lia]; apply Hnone; congruence.
Qed.

(** With [i1 < i0] the length [i1 - i0] wraps around and the loop runs
    past the end of every field that has fewer than [2^64] sites:
    [mk_su3_mul] is undefined. *)
Theorem mk_su3_mul_inverted_range (arg : micro_kernel_arg_t) (i0 i1 : Z)
    (m : memory V) :
  0 <= i1 < i0 -> i0 < size_max ->
  (forall row, In row m -> Z.of_nat (length row) < size_max) ->
  mk_su3_mul mul plain arg i0 i1 m = None.
Proof.
  intros Hinv Hmax Hrows.
  destruct (views arg !! 0%nat) as [dest|] eqn:H0;
    [|unfold mk_su3_mul; rewrite H0; reflexivity].
  destruct (views arg !! 1%nat) as [left|] eqn:H1;
    [|unfold mk_su3_mul; rewrite H0, H1; reflexivity].
  destruct (views arg !! 2%nat) as [right|] eqn:H2;
    [|unfold mk_su3_mul; rewrite H0, H1, H2; reflexivity].
  rewrite (mk_su3_mul_plain mul arg dest left right) by assumption.
  assert (Hcount : size_sub i1 i0 = i1 - i0 + size_max).
  { unfold size_sub, wrap. symmetry.
    apply (Z.mod_unique _ _ (-1)); lia. }
  rewrite Hcount.
  destruct (for_range (Z.to_nat (i1 - i0 + size_max)) i0
              (su3_site mul (v dest) (v left) (v right)) m) as [m'|] eqn:Hrun;
    [exfalso|reflexivity].
  pose proof (su3_range_needs_cells _ _ _ _ i0 m m' ltac:(lia) Hrun) as Hcells.
  unfold cell in Hcells.
  destruct (m !! lv_data (v dest)) as [row|] eqn:Hrow.
  - assert (Hin : In row m)
      by (apply list_elem_of_In; exact (list_elem_of_lookup_2 _ _ _ Hrow)).
    specialize (Hrows row Hin).
    destruct (Hcells (Z.max i0 (Z.of_nat (length row))) ltac:(lia))
      as [[x Hx] _].
    apply lookup_lt_Some in Hx. lia.
  - destruct (Hcells i0 ltac:(lia)) as [[x Hx] _]. discriminate.
Qed.

End Su3Bounds.

Lemma mk_su3_mul_undefined_outside_witness :
  mk_su3_mul Z.mul plain (mk_arg (take 2 (views views_c_a_b)) 17) 0 17
    example_memory = None /\
  mk_su3_mul Z.mul plain views_c_a_b 15 18 example_memory = None.
Proof.
  destruct (mk_su3_mul_undefined_outside Z.mul
              (mk_arg (take 2 (views views_c_a_b)) 17) 0 17 example_memory)
    as [Hfew _].
  destruct (mk_su3_mul_undefined_outside Z.mul views_c_a_b 15 18
              example_memory) as [_ Hsite].
  split.
  - apply Hfew. simpl. lia.
  - apply (Hsite ltac:(lia) eq_refl 0%nat
             (mkViewContainer 0 (mkLatticeView 2 AcceleratorWriteDiscard)) 17);
      [lia | reflexivity | lia | reflexivity].
Defined.

Lemma mk_su3_mul_inverted_range_witness :
  mk_su3_mul Z.mul plain views_c_a_b 10 5 example_memory = None.
Proof.
  apply (mk_su3_mul_inverted_range Z.mul views_c_a_b 10 5 example_memory);
    [lia|reflexivity|].
  intros row [<-|[<-|[<-|[<-|[]]]]]; reflexivity.
Defined.

(** ** Extents of later kernels are not checked *)

Lemma untiled_same_above {V : Type}
    (kernels : list (micro_kernel_t (memory V))) (extent : Z)
    (m m' : memory V) :
  (forall k, In k kernels -> sitewise k) ->
  0 <= extent < size_max ->
  untiled kernels extent m = Some m' ->
  same_above extent m m'.
Proof.
  intros Hsw Hext Hrun. rewrite untiled_calls in Hrun.
  apply (run_calls_same_above kernels
           (row (seq 0 (length kernels)) (0, extent)) extent m m' Hsw
           (proj2 Hext));
    [|exact Hrun].
  intros c Hc. apply in_map_iff in Hc as (i & <- & _). simpl. lia.
Qed.

(** Only the extent of the first kernel is used: when a later
    [mk_su3_mul] kernel of the schedule has a field that lacks a site below
    that extent, the pass runs this kernel out of the field and is
    undefined. *)
Theorem eval_micro_kernels_short_field {V : Type} (mul : V -> V -> V)
    (kernels : list (micro_kernel_t (memory V)))
    (k0 : micro_kernel_t (memory V)) (p q : nat)
    (argp : micro_kernel_arg_t) (x : ViewContainer)
    (block_size i : Z) (m : memory V) :
  (forall k, In k kernels -> sitewise k) ->
  kernels !! 0%nat = Some k0 ->
  kernels !! p = Some (mk_kernel (mk_su3_mul mul plain) argp) ->
  views argp !! q = Some x -> (q < 3)%nat ->
  1 <= block_size -> o_sites (arg k0) + block_size - 1 < size_max ->
  0 <= i < o_sites (arg k0) ->
  cell m (lv_data (v x)) (Z.to_nat i) = None ->
  eval_micro_kernels kernels block_size m = None.
Proof.
  intros Hsw Hk0 Hkp Hx Hq Hb Hfit Hi Hcell.
  rewrite (eval_micro_kernels_one_row kernels k0 block_size m Hsw Hk0)
    by lia.
  rewrite <- untiled_calls.
  rewrite <- (take_drop_middle kernels p _ Hkp), untiled_app.
  unfold andthen.
  destruct (untiled (take p kernels) (o_sites (arg k0)) m) as [m1|] eqn:Hpre;
    [|reflexivity].
  assert (Hshape : same_above (o_sites (arg k0)) m m1).
  { apply (untiled_same_above (take p kernels)); [|lia|exact Hpre].
    intros k Hk. apply Hsw. apply list_elem_of_In.
    apply list_elem_of_In, elem_of_take in Hk as (i' & Hi' & _).
    exact (list_elem_of_lookup_2 _ _ _ Hi'). }
  cbn [untiled action arg].
  destruct (mk_su3_mul mul plain argp 0 (o_sites (arg k0)) m1) as [m2|] eqn:Hrun;
    [exfalso|reflexivity].
  destruct (mk_su3_mul_needs_cells mul argp 0 (o_sites (arg k0)) m1 m2
              ltac:(lia) ltac:(lia) Hrun)
    as (dest & left & right & H0 & H1 & H2 & Hcells).
  destruct (Hcells i Hi) as (Hd & Hl & Hr).
  assert (Hnone : ~ is_Some (cell m1 (lv_data (v x)) (Z.to_nat i))).
  { rewrite (proj2 Hshape). rewrite Hcell. intros [y Hy]. discriminate. }
  destruct q as [|[|[|q]]]; [| | |lia]; apply Hnone; congruence.
Qed.

Lemma eval_micro_kernels_short_field_witness :
  eval_micro_kernels mismatched_expression 5 mismatched_memory = None.
Proof.
  apply (eval_micro_kernels_short_field Z.mul mismatched_expression
           (mk_kernel (mk_su3_mul Z.mul plain) views_c_a_b) 1 0
           short_views
           (mkViewContainer 6 (mkLatticeView 4 AcceleratorWriteDiscard))
           5 5 mismatched_memory);
    [ intros k [<-|[<-|[]]]; eapply mk_su3_mul_sitewise; reflexivity
    | reflexivity | reflexivity | reflexivity | lia | lia | reflexivity
    | simpl; lia | reflexivity ].
Defined.

(** ** Building a view set from a list of fields *)

Lemma add_all_later (ls : list (Lattice * ViewMode))
    (self : micro_kernel_arg_t) (w : view_world) :
  views self <> [] ->
  Forall (fun p => lat_oSites p.1 = o_sites self) ls ->
  exists new w',
    add_all ls self w = Done (mk_arg (views self ++ new) (o_sites self), w') /\
    map v new = map view_of ls /\
    map vc_id new = seq (next_id w) (length ls) /\
    next_id w' = (next_id w + length ls)%nat /\
    live w' = rev (map vc_id new) ++ live w /\
    trace w' = trace w ++ map opened new.
Proof.
  revert self w. induction ls as [|[l mode] ls IH]; intros self w Hne Hall.
  - exists [], w. simpl. rewrite !app_nil_r, Nat.add_0_r.
    destruct self; repeat split; reflexivity.
  - apply Forall_cons in Hall as [Hl Hall]. simpl in Hl.
    cbn [add_all]. rewrite (add_later l mode self w Hne).
    replace (o_sites self =? lat_oSites l) with true
      by (symmetry; apply Z.eqb_eq; congruence).
    unfold open_and_push.
    set (x := mkViewContainer (next_id w) (mkLatticeView (lat_data l) mode)).
    destruct (IH (mk_arg (views self ++ [x]) (o_sites self))
                (mk_world (S (next_id w)) (next_id w :: live w)
                   (trace w ++ [ViewOpened (next_id w) (lat_data l) mode])))
      as (new & w' & Hrun & Hv & Hid & Hnext & Hlive & Htr).
    { simpl. intros E. apply app_eq_nil in E as [_ E]. discriminate. }
    { exact Hall. }
    exists (x :: new), w'. rewrite Hrun. simpl in *.
    rewrite <- app_assoc. simpl.
    split; [reflexivity|]. split; [f_equal; exact Hv|].
    split; [f_equal; exact Hid|]. split; [lia|].
    split; [rewrite Hlive, <- app_assoc; reflexivity|].
    rewrite Htr, <- app_assoc. reflexivity.
Qed.

Lemma add_all_mismatch (ls : list (Lattice * ViewMode))
    (self : micro_kernel_arg_t) (w : view_world) :
  views self <> [] ->
  Exists (fun p => lat_oSites p.1 <> o_sites self) ls ->
  add_all ls self w = AssertFailed.
Proof.
  revert self w. induction ls as [|[l mode] ls IH]; intros self w Hne Hex.
  - inversion Hex.
  - cbn [add_all]. rewrite (add_later l mode self w Hne).
    destruct (Z.eqb_spec (o_sites self) (lat_oSites l)) as [E|E];
      [|reflexivity].
    apply Exists_cons in Hex as [Hhd|Htl]; [simpl in Hhd; congruence|].
    unfold open_and_push. apply IH.
    + simpl. intros E'. apply app_eq_nil in E' as [_ E']. discriminate.
    + exact Htl.
Qed.

(** Adding a list of fields to an empty view set succeeds when every field
    has the outer-site count of the first one, and fails when one has not.
    On success the extent is that count, the view set holds one view for
    each field, in the order of the list, in fresh containers, and the
    views opened are exactly these. *)
Theorem add_all_same_extent (l0 : Lattice) (mode0 : ViewMode)
    (ls : list (Lattice * ViewMode)) (junk : Z) (w : view_world) :
  (Forall (fun p => lat_oSites p.1 = lat_oSites l0) ls ->
   exists self' w',
     add_all ((l0, mode0) :: ls) (no_views junk) w = Done (self', w') /\
     o_sites self' = lat_oSites l0 /\
     map v (views self') = map view_of ((l0, mode0) :: ls) /\
     map vc_id (views self') = seq (next_id w) (S (length ls)) /\
     trace w' = trace w ++ map opened (views self') /\
     (world_ok w -> view_set_ok self' w')) /\
  (Exists (fun p => lat_oSites p.1 <> lat_oSites l0) ls ->
   add_all ((l0, mode0) :: ls) (no_views junk) w = AssertFailed).
Proof.
  cbn [add_all]. rewrite (add_first l0 mode0 (no_views junk) w eq_refl).
  set (x := mkViewContainer (next_id w) (mkLatticeView (lat_data l0) mode0)).
  split.
  - intros Hall.
    destruct (add_all_later ls (mk_arg [x] (lat_oSites l0))
                (mk_world (S (next_id w)) (next_id w :: live w)
                   (trace w ++ [ViewOpened (next_id w) (lat_data l0) mode0]))
                ltac:(discriminate) Hall)
      as (new & w' & Hrun & Hv & Hid & Hnext & Hlive & Htr).
    simpl in *. exists (mk_arg (x :: new) (lat_oSites l0)), w'.
    split; [exact Hrun|]. split; [reflexivity|]. simpl.
    split; [f_equal; exact Hv|]. split; [f_equal; exact Hid|].
    split; [rewrite Htr, <- app_assoc; reflexivity|].
    intros Hw. unfold view_set_ok, world_ok. simpl.
    rewrite Hlive, Hnext, Hid. split; [|split].
    + apply (NoDup_seq (next_id w) (S (length ls))).
    + intros y [<-|Hy]; apply in_or_app.
      * right. left. reflexivity.
      * left. rewrite <- in_rev, <- Hid. apply in_map. exact Hy.
    + intros id Hin. apply in_app_or in Hin as [Hin|[<-|Hin]].
      * rewrite <- in_rev in Hin. apply in_seq in Hin. lia.
      * lia.
      * pose proof (Hw id Hin). lia.
  - intros Hex.
    apply (add_all_mismatch ls (mk_arg [x] (lat_oSites l0))); [discriminate|].
    exact Hex.
Qed.

Lemma add_all_same_extent_witness :
  (exists self' w',
     add_all [(lat_c, AcceleratorWriteDiscard); (lat_a, AcceleratorRead);
              (lat_b, AcceleratorRead)] (no_views 0) fresh_world
     = Done (self', w') /\
     o_sites self' = lat_oSites lat_c /\
     map v (views self')
     = map view_of [(lat_c, AcceleratorWriteDiscard); (lat_a, AcceleratorRead);
                    (lat_b, AcceleratorRead)] /\
     map vc_id (views self') = seq (next_id fresh_world) 3 /\
     trace w' = trace fresh_world ++ map opened (views self') /\
     (world_ok fresh_world -> view_set_ok self' w')) /\
  add_all [(lat_c, AcceleratorWriteDiscard); (lat_a, AcceleratorRead);
           (mkLattice 4 5, AcceleratorRead)] (no_views 0) fresh_world
  = AssertFailed.
Proof.
  split.
  - apply (proj1 (add_all_same_extent lat_c AcceleratorWriteDiscard
                    [(lat_a, AcceleratorRead); (lat_b, AcceleratorRead)]
                    0 fresh_world)).
    repeat constructor.
  - apply (proj2 (add_all_same_extent lat_c AcceleratorWriteDiscard
                    [(lat_a, AcceleratorRead);
                     (mkLattice 4 5, AcceleratorRead)] 0 fresh_world)).
    apply Exists_cons_tl, Exists_cons_hd. discriminate.
Defined.

(** ** Releasing more than once, and more than one view set *)

Lemma delete_all_next_id (xs : list ViewContainer) (w w' : view_world) :
  delete_all xs w = Some w' -> next_id w' = next_id w.
Proof.
  revert w. induction xs as [|x xs IH]; intros w; simpl.
  - intros [= <-]. reflexivity.
  - unfold delete_container.
    destruct (in_dec Nat.eq_dec (vc_id x) (live w)); [|discriminate].
    intros Hrun. apply IH in Hrun. exact Hrun.
Qed.

Lemma delete_all_app (xs ys : list ViewContainer) (w : view_world) :
  delete_all (xs ++ ys) w
  = match delete_all xs w with
    | Some w1 => delete_all ys w1
    | None => None
    end.
Proof.
  revert w. induction xs as [|x xs IH]; intros w; simpl.
  - reflexivity.
  - destruct (delete_container x w) as [w1|]; [apply IH|reflexivity].
Qed.

Lemma delete_all_dead (xs : list ViewContainer) (w : view_world) x :
  In x xs -> ~ In (vc_id x) (live w) -> delete_all xs w = None.
Proof.
  revert w. induction xs as [|y xs IH]; intros w Hin Hdead; [destruct Hin|].
  simpl. unfold delete_container.
  destruct (in_dec Nat.eq_dec (vc_id y) (live w)) as [Hy|Hy]; [|reflexivity].
  destruct Hin as [->|Hin]; [contradiction|].
  apply IH; [exact Hin|]. simpl. intros Hrem.
  apply in_remove in Hrem as [Hlive _]. contradiction.
Qed.

(** [release] does not empty [views]: releasing a view set that holds a
    handle a second time deletes its containers again, which is undefined. *)
Theorem release_twice_undefined (self : micro_kernel_arg_t) (w : view_world) :
  view_set_ok self w -> views self <> [] ->
  exists w', release self w = Some w' /\ release self w' = None.
Proof.
  intros (Hnd & Hlive & _) Hne.
  destruct (delete_all_closes (views self) w Hnd Hlive)
    as (w' & Hrun & _ & Hl).
  exists w'. split; [exact Hrun|]. unfold release.
  destruct (views self) as [|x xs] eqn:Hv; [contradiction|].
  apply (delete_all_dead (x :: xs) w' x); [left; reflexivity|].
  intros Hin. apply Hl in Hin as [_ Hnot]. apply Hnot. left. reflexivity.
Qed.

Lemma views_c_a_b_ok :
  view_set_ok views_c_a_b
    (mk_world 3 [2; 1; 0]
       [ViewOpened 0 2 AcceleratorWriteDiscard;
        ViewOpened 1 0 AcceleratorRead;
        ViewOpened 2 1 AcceleratorRead])%nat.
Proof.
  split; [|split].
  - apply (NoDup_seq 0 3).
  - intros x [<-|[<-|[<-|[]]]]; simpl; tauto.
  - intros id [<-|[<-|[<-|[]]]]; simpl; lia.
Qed.

Lemma release_twice_undefined_witness :
  exists w',
    release views_c_a_b
      (mk_world 3 [2; 1; 0]
         [ViewOpened 0 2 AcceleratorWriteDiscard;
          ViewOpened 1 0 AcceleratorRead;
          ViewOpened 2 1 AcceleratorRead])%nat = Some w' /\
    release views_c_a_b w' = None.
Proof.
  apply (release_twice_undefined views_c_a_b _ views_c_a_b_ok). discriminate.
Defined.

Lemma release_both_delete_all (A B : micro_kernel_arg_t) (w : view_world) :
  release_both A B w = delete_all (views A ++ views B) w.
Proof. unfold release_both, release. rewrite delete_all_app. reflexivity. Qed.

(** Two view sets with different containers can be released one after the
    other, in either order: each container of both is closed exactly
    once, and releasing the first leaves the second as it was built. *)
Theorem release_both_either_order (A B : micro_kernel_arg_t)
    (w : view_world) :
  view_set_ok A w -> view_set_ok B w ->
  (forall x y, In x (views A) -> In y (views B) -> vc_id x <> vc_id y) ->
  exists w1 w2 w2',
    release A w = Some w1 /\ view_set_ok B w1 /\
    release_both A B w = Some w2 /\
    release_both B A w = Some w2' /\
    trace w2 = trace w ++ map (fun x => ViewClosed (vc_id x))
                            (views A ++ views B) /\
    (forall x, In x (views A ++ views B) ->
               closes_of (vc_id x)
                 (map (fun x => ViewClosed (vc_id x)) (views A ++ views B))
               = 1%nat) /\
    (forall id, In id (live w2) <-> In id (live w2')) /\
    (forall x, In x (views A ++ views B) -> ~ In (vc_id x) (live w2)).
Proof.
  intros (HndA & HliveA & Hw) (HndB & HliveB & _) Hdisj.
  assert (HndAB : NoDup (map vc_id (views A ++ views B))).
  { rewrite map_app. apply NoDup_app. split; [exact HndA|]. split; [|exact HndB].
    intros id HA HB. apply list_elem_of_In, in_map_iff in HA as (x & <- & Hx).
    apply list_elem_of_In, in_map_iff in HB as (y & E & Hy).
    exact (Hdisj x y Hx Hy (eq_sym E)). }
  assert (HndBA : NoDup (map vc_id (views B ++ views A))).
  { rewrite map_app. apply NoDup_app. split; [exact HndB|]. split; [|exact HndA].
    intros id HB HA. apply list_elem_of_In, in_map_iff in HA as (x & <- & Hx).
    apply list_elem_of_In, in_map_iff in HB as (y & E & Hy).
    exact (Hdisj x y Hx Hy (eq_sym E)). }
  destruct (delete_all_closes (views A) w HndA HliveA)
    as (w1 & Hrun1 & _ & Hl1).
  destruct (delete_all_closes (views A ++ views B) w HndAB)
    as (w2 & Hrun2 & Htr2 & Hl2).
  { intros x Hx. apply in_app_or in Hx as [Hx|Hx]; auto. }
  destruct (delete_all_closes (views B ++ views A) w HndBA)
    as (w2' & Hrun2' & _ & Hl2').
  { intros x Hx. apply in_app_or in Hx as [Hx|Hx]; auto. }
  exists w1, w2, w2'. split; [exact Hrun1|]. split.
  { split; [exact HndB|]. split.
    - intros y Hy. apply Hl1. split; [exact (HliveB y Hy)|].
      intros Hin. apply in_map_iff in Hin as (x & E & Hx).
      exact (Hdisj x y Hx Hy E).
    - intros id Hid. rewrite (delete_all_next_id _ _ _ Hrun1).
      apply Hw. apply Hl1 in Hid as [Hid _]. exact Hid. }
  rewrite !release_both_delete_all.
  split; [exact Hrun2|]. split; [exact Hrun2'|]. split; [exact Htr2|].
  split; [|split].
  - intros x Hx. rewrite closes_of_map.
    apply NoDup_count_occ'; [apply NoDup_ListNoDup; exact HndAB|].
    apply in_map. exact Hx.
  - intros id. rewrite Hl2, Hl2', !map_app, !in_app_iff. tauto.
  - intros x Hx Hin. apply Hl2 in Hin as [_ Hnot].
    apply Hnot, in_map. exact Hx.
Qed.

Lemma built_views_ok :
  view_set_ok views_c_a_b built_world /\ view_set_ok views_d_a_c built_world.
Proof.
  split; (split; [|split]).
  - apply (NoDup_seq 0 3).
  - intros x [<-|[<-|[<-|[]]]]; simpl; tauto.
  - intros id [<-|[<-|[<-|[<-|[<-|[<-|[]]]]]]]; simpl; lia.
  - apply (NoDup_seq 3 3).
  - intros x [<-|[<-|[<-|[]]]]; simpl; tauto.
  - intros id [<-|[<-|[<-|[<-|[<-|[<-|[]]]]]]]; simpl; lia.
Qed.

Lemma release_both_either_order_witness :
  exists w1 w2 w2',
    release views_c_a_b built_world = Some w1 /\ view_set_ok views_d_a_c w1 /\
    release_both views_c_a_b views_d_a_c built_world = Some w2 /\
    release_both views_d_a_c views_c_a_b built_world = Some w2' /\
    trace w2 = trace built_world
               ++ map (fun x => ViewClosed (vc_id x))
                    (views views_c_a_b ++ views views_d_a_c) /\
    (forall x, In x (views views_c_a_b ++ views views_d_a_c) ->
               closes_of (vc_id x)
                 (map (fun x => ViewClosed (vc_id x))
                    (views views_c_a_b ++ views views_d_a_c))
               = 1%nat) /\
    (forall id, In id (live w2) <-> In id (live w2')) /\
    (forall x, In x (views views_c_a_b ++ views views_d_a_c) ->
               ~ In (vc_id x) (live w2)).
Proof.
  apply (release_both_either_order views_c_a_b views_d_a_c built_world
           (proj1 built_views_ok) (proj2 built_views_ok)).
  intros x y [<-|[<-|[<-|[]]]] [<-|[<-|[<-|[]]]]; discriminate.
Defined.

(** ** The view sets of [micro_kernels], from construction to release *)

Lemma add3_spec (dest left right : Lattice) (junk : Z) (w : view_world) :
  add3 dest left right (no_views junk) w
  = if (lat_oSites dest =? lat_oSites left)
       && (lat_oSites dest =? lat_oSites right)
    then
      Done (mk_arg
              [mkViewContainer (next_id w)
                 (mkLatticeView (lat_data dest) AcceleratorWriteDiscard);
               mkViewContainer (S (next_id w))
                 (mkLatticeView (lat_data left) AcceleratorRead);
               mkViewContainer (S (S (next_id w)))
                 (mkLatticeView (lat_data right) AcceleratorRead)]
              (lat_oSites dest),
            mk_world (S (S (S (next_id w))))
              (S (S (next_id w)) :: S (next_id w) :: next_id w :: live w)
              (trace w
               ++ [ViewOpened (next_id w) (lat_data dest)
                     AcceleratorWriteDiscard;
                   ViewOpened (S (next_id w)) (lat_data left) AcceleratorRead;
                   ViewOpened (S (S (next_id w))) (lat_data right)
                     AcceleratorRead]))
    else AssertFailed.
Proof.
  unfold add3, add, ASSERT, open_and_push, no_views. simpl.
  destruct (lat_oSites dest =? lat_oSites left); [|reflexivity]. simpl.
  destruct (lat_oSites dest =? lat_oSites right); [|reflexivity]. simpl.
  rewrite <- !app_assoc. reflexivity.
Qed.

(** [micro_kernels] builds its two view sets exactly when the four
    lattices have the same outer-site count.  Built in a view system that
    is in order and then released, the two view sets leave allocated what
    was allocated before, and the views opened and closed are six openings
    followed by the six closings of the same containers. *)
Theorem build_views_then_release (a b c d : Lattice) (junk1 junk2 : Z)
    (w : view_world) :
  ((exists r, build_views a b c d junk1 junk2 w = Done r) <->
   lat_oSites a = lat_oSites c /\ lat_oSites b = lat_oSites c /\
   lat_oSites d = lat_oSites c) /\
  (world_ok w ->
   lat_oSites a = lat_oSites c -> lat_oSites b = lat_oSites c ->
   lat_oSites d = lat_oSites c ->
   exists v1 v2 w2 w3,
     build_views a b c d junk1 junk2 w = Done (v1, v2, w2) /\
     o_sites v1 = lat_oSites c /\ o_sites v2 = lat_oSites c /\
     map v (views v1)
     = map view_of [(c, AcceleratorWriteDiscard); (a, AcceleratorRead);
                    (b, AcceleratorRead)] /\
     map v (views v2)
     = map view_of [(d, AcceleratorWriteDiscard); (a, AcceleratorRead);
                    (c, AcceleratorRead)] /\
     release_both v1 v2 w2 = Some w3 /\
     trace w3 = trace w ++ map opened (views v1 ++ views v2)
                ++ map (fun x => ViewClosed (vc_id x)) (views v1 ++ views v2) /\
     next_id w3 = (next_id w + 6)%nat /\
     forall id, In id (live w3) <-> In id (live w)).
Proof.
  unfold build_views. rewrite add3_spec. split.
  - destruct (Z.eqb_spec (lat_oSites c) (lat_oSites a)) as [Ea|Ea];
      destruct (Z.eqb_spec (lat_oSites c) (lat_oSites b)) as [Eb|Eb]; simpl;
      try (split; [intros [r Hr]; discriminate|intros (? & ? & ?); congruence]).
    rewrite add3_spec.
    destruct (Z.eqb_spec (lat_oSites d) (lat_oSites a)) as [Ed|Ed];
      destruct (Z.eqb_spec (lat_oSites d) (lat_oSites c)) as [Ec|Ec]; simpl;
      try (split; [intros [r Hr]; discriminate|intros (? & ? & ?); congruence]).
    split; [intros _; repeat split; congruence|intros _; eexists; reflexivity].
  - intros Hw Ea Eb Ed.
    replace (lat_oSites c =? lat_oSites a) with true
      by (symmetry; apply Z.eqb_eq; congruence).
    replace (lat_oSites c =? lat_oSites b) with true
      by (symmetry; apply Z.eqb_eq; congruence).
    simpl. rewrite add3_spec.
    replace (lat_oSites d =? lat_oSites a) with true
      by (symmetry; apply Z.eqb_eq; congruence).
    replace (lat_oSites d =? lat_oSites c) with true
      by (symmetry; apply Z.eqb_eq; congruence).
    simpl. set (n := next_id w).
    eexists _, _, _. 
    match goal with
    | |- exists w3, Done (?v1, ?v2, ?w2) = _ /\ _ =>
        destruct (delete_all_closes (views v1 ++ views v2) w2)
          as (w3 & Hrun & Htr & Hl)
    end.
    { apply (NoDup_seq n 6). }
    { intros x [<-|[<-|[<-|[<-|[<-|[<-|[]]]]]]]; simpl; tauto. }
    exists w3. split; [reflexivity|]. split; [reflexivity|].
    split; [exact Ed|]. split; [reflexivity|]. split; [reflexivity|].
    rewrite release_both_delete_all. split; [exact Hrun|]. split.
    + rewrite Htr. simpl. rewrite <- !app_assoc. reflexivity.
    + split.
      * rewrite (delete_all_next_id _ _ _ Hrun). simpl. subst n. lia.
      * intros id. rewrite Hl. simpl. split.
        -- intros [Hin Hnot]. tauto.
        -- intros Hin. pose proof (Hw id Hin). fold n in H.
           split; [tauto|]. intros Hid.
           repeat (destruct Hid as [Hid|Hid]; [lia|]). exact Hid.
Qed.

Lemma build_views_then_release_witness :
  exists v1 v2 w2 w3,
    build_views lat_a lat_b lat_c lat_d 0 0 fresh_world = Done (v1, v2, w2) /\
    o_sites v1 = lat_oSites lat_c /\ o_sites v2 = lat_oSites lat_c /\
    map v (views v1)
    = map view_of [(lat_c, AcceleratorWriteDiscard); (lat_a, AcceleratorRead);
                   (lat_b, AcceleratorRead)] /\
    map v (views v2)
    = map view_of [(lat_d, AcceleratorWriteDiscard); (lat_a, AcceleratorRead);
                   (lat_c, AcceleratorRead)] /\
    release_both v1 v2 w2 = Some w3 /\
    trace w3 = trace fresh_world ++ map opened (views v1 ++ views v2)
               ++ map (fun x => ViewClosed (vc_id x)) (views v1 ++ views v2) /\
    next_id w3 = (next_id fresh_world + 6)%nat /\
    forall id, In id (live w3) <-> In id (live fresh_world).
Proof.
  apply (proj2 (build_views_then_release lat_a lat_b lat_c lat_d 0 0
                  fresh_world));
    [intros id [] | reflexivity | reflexivity | reflexivity].
Defined.

(** ** What the passes of [micro_kernels] compute *)

Section Driver.

Context {V : Type}.
Variable mul : V -> V -> V.
Implicit Types (m : memory V).

Lemma product_at_defined m (A B j : nat) :
  is_Some (cell m A j) -> is_Some (cell m B j) ->
  is_Some (product_at mul m A B j).
Proof.
  intros [x Hx] [y Hy]. unfold product_at. rewrite Hx, Hy.
  eexists. reflexivity.
Qed.

(** One [mk_su3_mul] kernel over the whole extent. *)
Lemma su3_action_spec (arg : micro_kernel_arg_t)
    (dest left right : ViewContainer) (extent : Z) m :
  views arg !! 0%nat = Some dest ->
  views arg !! 1%nat = Some left ->
  views arg !! 2%nat = Some right ->
  0 <= extent < size_max ->
  (forall j, Z.of_nat j < extent ->
             is_Some (cell m (lv_data (v dest)) j) /\
             is_Some (cell m (lv_data (v left)) j) /\
             is_Some (cell m (lv_data (v right)) j)) ->
  exists m',
    mk_su3_mul mul plain arg 0 extent m = Some m' /\
    (forall j, Z.of_nat j < extent ->
               cell m' (lv_data (v dest)) j
               = product_at mul m (lv_data (v left)) (lv_data (v right)) j) /\
    (forall data j,
       ~ (data = lv_data (v dest) /\ Z.of_nat j < extent) ->
       cell m' data j = cell m data j).
Proof.
  intros H0 H1 H2 Hext Hcells.
  rewrite (mk_su3_mul_plain mul arg dest left right) by assumption.
  rewrite size_sub_exact by lia. rewrite Z.sub_0_r.
  destruct (su3_range mul (v dest) (v left) (v right) (Z.to_nat extent) 0 m
              ltac:(lia)) as (m' & Hrun & Hin & Hout).
  { intros i Hi. apply Hcells. lia. }
  exists m'. split; [exact Hrun|]. split.
  - intros j Hj. apply Hin. lia.
  - intros data j Hne. apply Hout. intros [E Hj]. apply Hne. split; [exact E|lia].
Qed.


(** One pass over [c = a*b; d = a*c; c = a*b; d = a*c]. *)
Lemma fused_pass (xc xa xb xd xa' xc' : ViewContainer) (o1 o2 : Z)
    (A B C D : nat) (block_size : Z) m :
  lv_data (v xc) = C -> lv_data (v xa) = A -> lv_data (v xb) = B ->
  lv_data (v xd) = D -> lv_data (v xa') = A -> lv_data (v xc') = C ->
  C <> A -> C <> B -> D <> A -> D <> B -> D <> C ->
  0 <= o1 -> 1 <= block_size -> o1 + block_size - 1 < size_max ->
  (forall data j, In data [A; B; C; D] -> Z.of_nat j < o1 ->
                  is_Some (cell m data j)) ->
  exists m',
    eval_micro_kernels
      (fused_expression mul (mk_arg [xc; xa; xb] o1) (mk_arg [xd; xa'; xc'] o2))
      block_size m = Some m' /\
    fused_result mul A B C D o1 m m'.
Proof.
  intros EC EA EB ED EA' EC' HCA HCB HDA HDB HDC Ho Hb Hfit Hcells.
  set (v1 := mk_arg [xc; xa; xb] o1). set (v2 := mk_arg [xd; xa'; xc'] o2).
  assert (Hsw : forall k, In k (fused_expression mul v1 v2) -> sitewise k).
  { intros k [<-|[<-|[<-|[<-|[]]]]]; eapply mk_su3_mul_sitewise; reflexivity. }
  rewrite (eval_micro_kernels_one_row (fused_expression mul v1 v2)
             (mk_kernel (mk_su3_mul mul plain) v1) block_size m Hsw eq_refl)
    by assumption.
  rewrite <- untiled_calls. cbn [fused_expression untiled action arg o_sites v1].
  assert (Hext : 0 <= o1 < size_max) by lia.
  (* c = a * b *)
  destruct (su3_action_spec v1 xc xa xb o1 m eq_refl eq_refl eq_refl Hext)
    as (m1 & Hrun1 & Hin1 & Hout1).
  { intros j Hj. rewrite EC, EA, EB. repeat split; apply Hcells;
      simpl; auto. }
  rewrite Hrun1. rewrite EC, EA, EB in *.
  (* d = a * c *)
  destruct (su3_action_spec v2 xd xa' xc' o1 m1 eq_refl eq_refl eq_refl Hext)
    as (m2 & Hrun2 & Hin2 & Hout2).
  { intros j Hj. rewrite ED, EA', EC'.
    rewrite ?(Hout1 A), ?(Hout1 B), ?(Hout1 D) by (intros [? ?]; congruence).
    rewrite Hin1 by exact Hj.
    split; [apply Hcells; simpl; auto|].
    split; [apply Hcells; simpl; auto|].
    apply product_at_defined; apply Hcells; simpl; auto. }
  rewrite Hrun2. rewrite ED, EA', EC' in *.
  (* c = a * b *)
  destruct (su3_action_spec v1 xc xa xb o1 m2 eq_refl eq_refl eq_refl Hext)
    as (m3 & Hrun3 & Hin3 & Hout3).
  { intros j Hj. rewrite EC, EA, EB.
    rewrite ?(Hout2 A), ?(Hout2 B), ?(Hout2 C) by (intros [? ?]; congruence).
    rewrite ?(Hout1 A), ?(Hout1 B), ?(Hout1 D) by (intros [? ?]; congruence).
    rewrite Hin1 by exact Hj.
    split; [apply product_at_defined; apply Hcells; simpl; auto|].
    split; apply Hcells; simpl; auto. }
  rewrite Hrun3. rewrite EC, EA, EB in *.
  (* d = a * c *)
  destruct (su3_action_spec v2 xd xa' xc' o1 m3 eq_refl eq_refl eq_refl Hext)
    as (m4 & Hrun4 & Hin4 & Hout4).
  { intros j Hj. rewrite ED, EA', EC'. rewrite Hin3 by exact Hj.
    rewrite ?(Hout3 A), ?(Hout3 B), ?(Hout3 D) by (intros [? ?]; congruence).
    rewrite Hin2 by exact Hj.
    rewrite ?(Hout2 A), ?(Hout2 B), ?(Hout2 C) by (intros [? ?]; congruence).
    rewrite ?(Hout1 A), ?(Hout1 B), ?(Hout1 D) by (intros [? ?]; congruence).
    assert (HA : is_Some (cell m A j)) by (apply Hcells; simpl; auto).
    assert (HB : is_Some (cell m B j)) by (apply Hcells; simpl; auto).
    split; [|split].
    - apply product_at_defined; [rewrite ?(Hout1 A), ?(Hout1 B), ?(Hout1 D) by (intros [? ?]; congruence);
                                 exact HA|].
      rewrite Hin1 by exact Hj. apply product_at_defined; assumption.
    - exact HA.
    - apply product_at_defined;
        rewrite ?(Hout2 A), ?(Hout2 B), ?(Hout2 C), ?(Hout1 A), ?(Hout1 B), ?(Hout1 D) by (intros [? ?]; congruence); assumption. }
  rewrite Hrun4. rewrite ED, EA', EC' in *.
  exists m4. split; [reflexivity|]. split.
  - intros j Hj. split.
    + rewrite ?(Hout4 A), ?(Hout4 B), ?(Hout4 C) by (intros [? ?]; congruence).
      rewrite Hin3 by exact Hj. unfold product_at.
      rewrite ?(Hout2 A), ?(Hout2 B), ?(Hout2 C), ?(Hout1 A), ?(Hout1 B), ?(Hout1 D) by (intros [? ?]; congruence). reflexivity.
    + rewrite Hin4 by exact Hj. unfold product_at.
      rewrite ?(Hout4 A), ?(Hout4 B), ?(Hout4 C) by (intros [? ?]; congruence). reflexivity.
  - intros data j Hne.
    rewrite Hout4, Hout3, Hout2, Hout1; [reflexivity| | | |];
      intros [E Hj]; apply Hne; split; auto.
Qed.

End Driver.

Lemma fused_passes {V : Type} (mul : V -> V -> V)
    (xc xa xb xd xa' xc' : ViewContainer) (o1 o2 : Z)
    (A B C D : nat) (block_size : Z) (N : nat) (lo : Z) (m m0 : memory V) :
  lv_data (v xc) = C -> lv_data (v xa) = A -> lv_data (v xb) = B ->
  lv_data (v xd) = D -> lv_data (v xa') = A -> lv_data (v xc') = C ->
  C <> A -> C <> B -> D <> A -> D <> B -> D <> C ->
  0 <= o1 -> 1 <= block_size -> o1 + block_size - 1 < size_max ->
  (forall data j, In data [A; B; C; D] -> Z.of_nat j < o1 ->
                  is_Some (cell m0 data j)) ->
  (forall data j, ~ ((data = C \/ data = D) /\ Z.of_nat j < o1) ->
                  cell m0 data j = cell m data j) ->
  (1 <= N)%nat ->
  exists m',
    for_range N lo
      (fun _ =>
         eval_micro_kernels
           (fused_expression mul (mk_arg [xc; xa; xb] o1)
              (mk_arg [xd; xa'; xc'] o2)) block_size) m0 = Some m' /\
    fused_result mul A B C D o1 m m'.
Proof.
  intros EC EA EB ED EA' EC' HCA HCB HDA HDB HDC Ho Hb Hfit.
  revert lo m0. induction N as [|N IH]; intros lo m0 Hcells Hsame HN; [lia|].
  destruct (fused_pass mul xc xa xb xd xa' xc' o1 o2 A B C D block_size m0
              EC EA EB ED EA' EC' HCA HCB HDA HDB HDC Ho Hb Hfit Hcells)
    as (m1 & Hrun & Hres & Hrest).
  assert (Hres1 : fused_result mul A B C D o1 m m1).
  { split.
    - intros j Hj. destruct (Hres j Hj) as [HC HD]. split; [|exact HD].
      rewrite HC. unfold product_at.
      rewrite (Hsame A), (Hsame B) by (intros [[?|?] ?]; congruence).
      reflexivity.
    - intros data j Hne. rewrite Hrest, Hsame by exact Hne. reflexivity. }
  cbn [for_range]. rewrite Hrun.
  destruct N as [|N].
  - exists m1. split; [reflexivity|exact Hres1].
  - apply IH; [| |lia].
    + intros data j Hdata Hj. destruct (Hres j Hj) as [HC HD].
      assert (HA1 : is_Some (cell m1 A j)).
      { rewrite Hrest by (intros [[?|?] ?]; congruence).
        apply Hcells; simpl; auto. }
      assert (HB0 : is_Some (cell m0 B j)) by (apply Hcells; simpl; auto).
      assert (HC1 : is_Some (cell m1 C j)).
      { rewrite HC. apply product_at_defined; [|exact HB0].
        apply Hcells; simpl; auto. }
      destruct Hdata as [<-|[<-|[<-|[<-|[]]]]].
      * exact HA1.
      * rewrite Hrest by (intros [[?|?] ?]; congruence). exact HB0.
      * exact HC1.
      * rewrite HD. apply product_at_defined; assumption.
    + exact (proj2 Hres1).
Qed.

(** The passes of [micro_kernels]: on four lattices whose destinations [c]
    and [d] are not the storage of an operand, any number [N >= 1] of
    passes with a block size whose block count does not wrap around
    leaves [c = a * b] and [d = a * (a * b)] at every site, and every other
    cell as it was. *)
Theorem micro_kernels_computes {V : Type} (mul : V -> V -> V)
    (a b c d : Lattice) (junk1 junk2 : Z) (w w2 : view_world)
    (v1 v2 : micro_kernel_arg_t) (block_size : Z) (N : nat) (m : memory V) :
  build_views a b c d junk1 junk2 w = Done (v1, v2, w2) ->
  lat_data c <> lat_data a -> lat_data c <> lat_data b ->
  lat_data d <> lat_data a -> lat_data d <> lat_data b ->
  lat_data d <> lat_data c ->
  0 <= lat_oSites c -> 1 <= block_size ->
  lat_oSites c + block_size - 1 < size_max ->
  (forall l j, In l [a; b; c; d] -> Z.of_nat j < lat_oSites c ->
               is_Some (cell m (lat_data l) j)) ->
  (1 <= N)%nat ->
  exists m',
    run_passes N (fused_expression mul v1 v2) block_size m = Some m' /\
    (forall j x y,
       Z.of_nat j < lat_oSites c ->
       cell m (lat_data a) j = Some x -> cell m (lat_data b) j = Some y ->
       cell m' (lat_data c) j = Some (mul x y) /\
       cell m' (lat_data d) j = Some (mul x (mul x y))) /\
    (forall data j,
       ~ ((data = lat_data c \/ data = lat_data d) /\
          Z.of_nat j < lat_oSites c) ->
       cell m' data j = cell m data j).
Proof.
  intros Hbuild HCA HCB HDA HDB HDC Ho Hb Hfit Hcells HN.
  unfold build_views in Hbuild. rewrite add3_spec in Hbuild.
  destruct ((lat_oSites c =? lat_oSites a) && (lat_oSites c =? lat_oSites b));
    [|discriminate].
  rewrite add3_spec in Hbuild.
  destruct ((lat_oSites d =? lat_oSites a) && (lat_oSites d =? lat_oSites c));
    [|discriminate].
  injection Hbuild as <- <- <-. unfold run_passes.
  match goal with
  | |- context [fused_expression mul (mk_arg [?xc; ?xa; ?xb] _)
                  (mk_arg [?xd; ?xa'; ?xc'] ?o2)] =>
      destruct (fused_passes mul xc xa xb xd xa' xc' (lat_oSites c) o2
                  (lat_data a) (lat_data b) (lat_data c) (lat_data d)
                  block_size N 0 m m
                  eq_refl eq_refl eq_refl eq_refl eq_refl eq_refl
                  HCA HCB HDA HDB HDC Ho Hb Hfit)
        as (m' & Hrun & Hres & Hrest)
  end.
  { intros data j [<-|[<-|[<-|[<-|[]]]]] Hj; apply Hcells; simpl; auto. }
  { reflexivity. }
  { exact HN. }
  exists m'. split; [exact Hrun|]. split; [|exact Hrest].
  intros j x y Hj Hx Hy. destruct (Hres j Hj) as [HC HD].
  assert (HC' : cell m' (lat_data c) j = Some (mul x y)).
  { rewrite HC. unfold product_at. rewrite Hx, Hy. reflexivity. }
  split; [exact HC'|].
  rewrite HD. unfold product_at.
  rewrite (Hrest (lat_data a)) by (intros [[?|?] ?]; congruence).
  rewrite Hx, HC'. reflexivity.
Qed.

Lemma micro_kernels_computes_witness :
  exists m',
    run_passes 10 (fused_expression Z.mul views_c_a_b views_d_a_c) 5
      example_memory = Some m' /\
    (forall j x y,
       Z.of_nat j < lat_oSites lat_c ->
       cell example_memory (lat_data lat_a) j = Some x ->
       cell example_memory (lat_data lat_b) j = Some y ->
       cell m' (lat_data lat_c) j = Some (x * y) /\
       cell m' (lat_data lat_d) j = Some (x * (x * y))) /\
    (forall data j,
       ~ ((data = lat_data lat_c \/ data = lat_data lat_d) /\
          Z.of_nat j < lat_oSites lat_c) ->
       cell m' data j = cell example_memory data j).
Proof.
  apply (micro_kernels_computes Z.mul lat_a lat_b lat_c lat_d 0 0 fresh_world
           built_world views_c_a_b views_d_a_c 5 10 example_memory eq_refl);
    try discriminate; try reflexivity; [|lia].
  intros l j Hl Hj. simpl in Hj.
  destruct Hl as [<-|[<-|[<-|[<-|[]]]]]; unfold cell; simpl;
    apply lookup_lt_is_Some_2; simpl; lia.
Defined.

(** ** A view set after its release *)

(** [release] resets neither [views] nor [o_sites]: on a released view
    set that held a handle, [add] still checks the field against the old
    extent; when it succeeds, the view set holds the deleted containers
    besides the new one, and releasing it is undefined. *)
Theorem add_after_release (l : Lattice) (mode : ViewMode)
    (self : micro_kernel_arg_t) (w w1 : view_world) :
  view_set_ok self w -> views self <> [] ->
  release self w = Some w1 ->
  (lat_oSites l <> o_sites self -> add l mode self w1 = AssertFailed) /\
  (lat_oSites l = o_sites self ->
   exists self' w2,
     add l mode self w1 = Done (self', w2) /\
     length (views self') = S (length (views self)) /\
     release self' w2 = None).
Proof.
  intros (Hnd & Hlive & Hw) Hne Hrel.
  rewrite (add_later l mode self w1 Hne). split.
  - intros Hdiff.
    destruct (Z.eqb_spec (o_sites self) (lat_oSites l)); [congruence|reflexivity].
  - intros ->. rewrite Z.eqb_refl. unfold open_and_push.
    eexists _, _. split; [reflexivity|]. simpl.
    split; [rewrite length_app; simpl; lia|].
    destruct (delete_all_closes (views self) w Hnd Hlive)
      as (w' & Hrun & _ & Hl).
    unfold release in Hrel. rewrite Hrun in Hrel. injection Hrel as ->.
    unfold release. simpl.
    destruct (views self) as [|x xs] eqn:Hv; [contradiction|].
    apply (delete_all_dead _ _ x); [left; reflexivity|].
    simpl. intros [E|Hin].
    + assert (Hx : In (vc_id x) (live w)) by (apply Hlive; left; reflexivity).
      pose proof (Hw _ Hx) as Hlt.
      pose proof (delete_all_next_id _ _ _ Hrun) as Hnext. lia.
    + apply Hl in Hin as [_ Hnot]. apply Hnot. left. reflexivity.
Qed.

Lemma add_after_release_witness :
  (lat_oSites (mkLattice 4 5) <> o_sites views_c_a_b ->
   add (mkLattice 4 5) AcceleratorRead views_c_a_b
     (mk_world 6 [5; 4; 3]%nat
        (trace built_world ++ [ViewClosed 0; ViewClosed 1; ViewClosed 2]))
   = AssertFailed) /\
  (lat_oSites (mkLattice 4 5) = o_sites views_c_a_b ->
   exists self' w2,
     add (mkLattice 4 5) AcceleratorRead views_c_a_b
       (mk_world 6 [5; 4; 3]%nat
          (trace built_world ++ [ViewClosed 0; ViewClosed 1; ViewClosed 2]))
     = Done (self', w2) /\
     length (views self') = S (length (views views_c_a_b)) /\
     release self' w2 = None).
Proof.
  apply (add_after_release (mkLattice 4 5) AcceleratorRead views_c_a_b
           built_world _ (proj1 built_views_ok));
    [discriminate|reflexivity].
Defined.
